(** * View-to-model conversion dispatcher and insert operation

    A shallow embedding of two classes of the editing engine:

    - [ViewConversionDispatcher] (engine/conversion/viewconversiondispatcher.js),
      in module [ViewConversion];
    - [InsertOperation] (engine/model/operation/insertoperation.js),
      in module [Insert].

    JavaScript objects have identity and are mutated in place, so both
    modules work over an explicit store mapping references to objects.
    The definitions come first, the dispatcher in [ViewConversion] and
    the operation in [Insert]; their properties follow in
    [ViewConversionFacts] and [InsertFacts].  Collaborators whose code is
    not part of the sources (the emitter, the consumable tracker, the
    writer, model nodes, positions) are either parameters of a section or
    small models that follow the specification, and say so. *)

From Stdlib Require Import ZArith.
From stdpp Require Import gmap strings list fin_maps.

Open Scope string_scope.
Open Scope list_scope.

(** Reference of a heap-allocated object. *)
Abbreviation loc := positive.

(* ===================================================================== *)
(** * The conversion dispatcher *)
(* ===================================================================== *)

Module ViewConversion.

(** ** JavaScript values and objects *)

(** Primitive values, and references to objects.  Numbers are the
    integers and [NaN]; no claim needs fractions. *)
Inductive Value : Type :=
| VNull
| VUndefined
| VBool (b : bool)
| VNum (z : Z)
| VNaN
| VStr (s : string)
| VRef (l : loc).

#[global] Instance Value_eq_dec : EqDecision Value.
Proof. solve_decision. Defined.

(** Objects of the store.  View nodes are the three node classes the
    dispatcher distinguishes; a plain object is a finite map from
    property names to values; the consumable tracker records, for each
    pair of a node and a facet, whether the facet may still be consumed. *)
Inductive Obj : Type :=
| ORecord (fields : gmap string Value)
| OArray (elems : list Value)
| OViewElement (name : string) (children : list loc)
| OViewText (data : string)
| OViewFragment (children : list loc)
| OConsumable (facets : gmap (loc * string) bool).

Abbreviation Heap := (gmap loc Obj).

(** Ordinary JavaScript truthiness: [null], [undefined], [false], [0],
    [NaN] and the empty string are falsy, every object is truthy. *)
Definition truthy (v : Value) : bool :=
  match v with
  | VNull | VUndefined | VNaN => false
  | VBool b => b
  | VNum z => negb (z =? 0)%Z
  | VStr s => negb (String.eqb s "")
  | VRef _ => true
  end.

(** [input instanceof ViewElement]: the element's name when it is one. *)
Definition instanceofViewElement (h : Heap) (v : Value) : option string :=
  match v with
  | VRef l => match h !! l with
              | Some (OViewElement name _) => Some name
              | _ => None
              end
  | _ => None
  end.

(** [input instanceof ViewText]. *)
Definition instanceofViewText (h : Heap) (v : Value) : bool :=
  match v with
  | VRef l => match h !! l with
              | Some (OViewText _) => true
              | _ => false
              end
  | _ => false
  end.

(** Property read [v.key]; a missing property reads as [undefined]. *)
Definition getProp (h : Heap) (v : Value) (key : string) : Value :=
  match v with
  | VRef l => match h !! l with
              | Some (ORecord f) => default VUndefined (f !! key)
              | _ => VUndefined
              end
  | _ => VUndefined
  end.

(** Own enumerable properties of a merge source: those of a plain
    object; [null], [undefined] and the other primitives have none. *)
Definition ownProps (h : Heap) (v : Value) : gmap string Value :=
  match v with
  | VRef l => match h !! l with
              | Some (ORecord f) => f
              | _ => ∅
              end
  | _ => ∅
  end.

(** Modelled from the spec: lodash's [extend] is not part of the sources;
    the request record is built "by shallow-merging [additionalData] with
    [{input: item, output: null}]": the property values of
    [additionalData] are copied as they are (references stay shared) and
    [input] and [output] are set last. *)
Definition extend (h : Heap) (additionalData input : Value) : gmap string Value :=
  <["output" := VNull]> (<["input" := input]> (ownProps h additionalData)).

(** ** State, outcomes and the trace of notifications *)

(** The trace is a forest: a notification records what was done while its
    listeners ran, so that what one call fires itself can be told from
    what nested calls fire. *)
#[warnings="-register-all"]
Inductive LogEntry : Type :=
| LFire (name : string) (args : list Value) (nested : list LogEntry)
| LCreateConsumable (root : Value).

Record State : Type := mkState {
  heap : Heap;
  log : list LogEntry
}.

(** How a call ends: with a value, with a thrown error, or without an
    answer within the given bound on the nesting of conversions. *)
Inductive Outcome (A : Type) : Type :=
| Val (a : A)
| Thrown (e : Value)
| Diverge.
Arguments Val {A} a.
Arguments Thrown {A} e.
Arguments Diverge {A}.

Definition M (A : Type) : Type := State → State * Outcome A.

Definition ret {A} (a : A) : M A := λ s, (s, Val a).

Definition bind {A B} (m : M A) (k : A → M B) : M B :=
  λ s, match m s with
       | (s', Val a) => k a s'
       | (s', Thrown e) => (s', Thrown e)
       | (s', Diverge) => (s', Diverge)
       end.

Notation "m >>= k" := (bind m k) (at level 50, left associativity).

Definition throw {A} (e : Value) : M A := λ s, (s, Thrown e).

(** [new]: the object gets a reference that is not in use. *)
Definition alloc (o : Obj) : M loc :=
  λ s, let l := fresh (dom (heap s)) in
       (mkState (<[l := o]> (heap s)) (log s), Val l).

Definition getHeap : M Heap := λ s, (s, Val (heap s)).

(** Two objects of the same class: a write never changes the class. *)
Definition sameClass (o1 o2 : Obj) : bool :=
  match o1, o2 with
  | ORecord _, ORecord _ | OArray _, OArray _
  | OViewElement _ _, OViewElement _ _ | OViewText _, OViewText _
  | OViewFragment _, OViewFragment _ | OConsumable _, OConsumable _ => true
  | _, _ => false
  end.

(** In-place update of an existing object. *)
Definition store (l : loc) (o : Obj) : M unit :=
  λ s, match heap s !! l with
       | Some o0 => if sameClass o0 o
                    then (mkState (<[l := o]> (heap s)) (log s), Val tt)
                    else (s, Val tt)
       | None => (s, Val tt)
       end.

(** ** Listeners *)

(** A listener is a program over the store that may call back into the
    dispatcher through the two entry points of the conversion interface. *)
Inductive Prog (A : Type) : Type :=
| Ret (a : A)
| Throw (e : Value)
| Alloc (o : Obj) (k : loc → Prog A)
| Load (l : loc) (k : option Obj → Prog A)
| Store (l : loc) (o : Obj) (k : Prog A)
| CallConvertItem (input consumable additionalData : Value) (k : Value → Prog A)
| CallConvertChildren (input consumable additionalData : Value) (k : Value → Prog A).
Arguments Ret {A} a.
Arguments Throw {A} e.
Arguments Alloc {A} o k.
Arguments Load {A} l k.
Arguments Store {A} l o k.
Arguments CallConvertItem {A} input consumable additionalData k.
Arguments CallConvertChildren {A} input consumable additionalData k.

Definition Callback : Type := list Value → Prog unit.

(** Modelled from the spec: the emitter mixin is not part of the sources.
    "event names are dot/colon-segmented, generic segment matches fire for
    all specific children": a listener registered for [pattern] is called
    for the notification [pattern] itself and for every [pattern:...]. *)
Definition listensTo (pattern name : string) : bool :=
  String.eqb pattern name || String.prefix (pattern +:+ ":") name.


(** ** Arrays *)

(** The elements [a.concat( b )] appends to [a]: those of [b] when [b] is
    an array, [b] itself otherwise. *)
Definition spread (h : Heap) (b : Value) : list Value :=
  match b with
  | VRef l => match h !! l with
              | Some (OArray xs) => xs
              | _ => [b]
              end
  | _ => [b]
  end.

(** One step of the reduction: [( a, b ) => b ? a.concat( b ) : a].
    The arrays built on the way are not observable, so the accumulator is
    the list of the elements of [a]; only the array the reduction ends
    with is allocated. *)
Definition reduceStep (h : Heap) (a : list Value) (b : Value) : list Value :=
  if truthy b then a ++ spread h b else a.

(** What one converted child adds to the result of the reduction. *)
Definition contribution (h : Heap) (b : Value) : list Value :=
  if truthy b then spread h b else [].

(** ** Which notification an item selects *)

(** The notification selected by the runtime class of the item. *)
Inductive Selected (h : Heap) (input : Value) : string → Prop :=
| selected_element l name cs :
    input = VRef l → h !! l = Some (OViewElement name cs) →
    Selected h input ("element:" +:+ name)
| selected_text l data :
    input = VRef l → h !! l = Some (OViewText data) →
    Selected h input "text"
| selected_other :
    instanceofViewElement h input = None →
    instanceofViewText h input = false →
    Selected h input "documentFragment".

(** The same choice as a function: the name [_convertItem] fires. *)
Definition notification (h : Heap) (input : Value) : string :=
  match instanceofViewElement h input with
  | Some name => "element:" +:+ name
  | None => if instanceofViewText h input then "text" else "documentFragment"
  end.

(** ** The dispatcher *)

Section Dispatcher.

(** The listeners in registration order, each with the name it was
    registered for. *)
Variable listeners : list (string * Callback).

(** The interface object handed to every listener ([this.conversionApi]). *)
Variable conversionApi : Value.

(** [ViewConsumable.createFrom], which is not part of the sources: it
    builds the tracker from the view item it is given. *)
Variable createFrom : Value → Heap → Heap * Outcome Value.

(** Type of the single-item conversion routine. *)
Abbreviation ItemConverter := (Value → Value → Value → M Value).

(** [Array.from( input.getChildren() )]: the children of an element or of
    a document fragment, as they are when the call is made; a [TypeError]
    on anything that has no such method. *)
Definition getChildren (input : Value) : M (list loc) :=
  λ s, match input with
       | VRef l => match heap s !! l with
                   | Some (OViewElement _ cs) => (s, Val cs)
                   | Some (OViewFragment cs) => (s, Val cs)
                   | _ => (s, Thrown (VStr "TypeError"))
                   end
       | _ => (s, Thrown (VStr "TypeError"))
       end.

(** [viewChildren.map( viewChild => this._convertItem( ... ) )]. *)
Fixpoint mapConvert (ci : ItemConverter) (consumable additionalData : Value)
    (viewChildren : list loc) : M (list Value) :=
  match viewChildren with
  | [] => ret []
  | viewChild :: rest =>
      ci (VRef viewChild) consumable additionalData >>= λ v,
      mapConvert ci consumable additionalData rest >>= λ vs,
      ret (v :: vs)
  end.

(** [_convertChildren], over the single-item routine it calls; the
    reduction starts from the empty array. *)
Definition convertChildrenWith (ci : ItemConverter)
    (input consumable additionalData : Value) : M Value :=
  getChildren input >>= λ viewChildren,
  mapConvert ci consumable additionalData viewChildren >>= λ convertedChildren,
  getHeap >>= λ h,
  alloc (OArray (foldl (reduceStep h) [] convertedChildren)) >>= λ r,
  ret (VRef r).

(** Running a listener: the two calls of the conversion interface are
    the bound [_convertItem] and [_convertChildren] of the dispatcher. *)
Fixpoint run {A} (ci : ItemConverter) (p : Prog A) : M A :=
  match p with
  | Ret a => ret a
  | Throw e => throw e
  | Alloc o k => alloc o >>= λ l, run ci (k l)
  | Load l k => getHeap >>= λ h, run ci (k (h !! l))
  | Store l o k => store l o >>= λ _, run ci k
  | CallConvertItem i c a k => ci i c a >>= λ v, run ci (k v)
  | CallConvertChildren i c a k =>
      convertChildrenWith ci i c a >>= λ v, run ci (k v)
  end.

(** The listeners called one after the other, in registration order. *)
Fixpoint callAll (ci : ItemConverter) (ls : list (string * Callback))
    (name : string) (args : list Value) : M unit :=
  match ls with
  | [] => ret tt
  | (pattern, cb) :: rest =>
      (if listensTo pattern name then run ci (cb args) else ret tt) >>= λ _,
      callAll ci rest name args
  end.

(** Modelled from the spec: [fire] of the emitter mixin, which is not part
    of the sources.  "All registered handlers for that notification name
    are invoked synchronously, in registration order"; an error thrown by
    one of them propagates.  The notification is entered in the trace
    with what happened while its listeners ran. *)
Definition fire (ci : ItemConverter) (name : string) (args : list Value) : M unit :=
  λ s, let '(s', r) := callAll ci listeners name args (mkState (heap s) []) in
       (mkState (heap s') (log s ++ [LFire name args (log s')]), r).

(** [_convertItem( input, consumable, additionalData = {} )].  The bound
    [fuel] limits how deep listeners may nest conversions. *)
Fixpoint _convertItem (fuel : nat) (input consumable additionalData : Value)
    : M Value :=
  match fuel with
  | O => λ s, (s, Diverge)
  | S fuel' =>
      let this_fire := fire (_convertItem fuel') in
      getHeap >>= λ h,
      alloc (ORecord (extend h additionalData input)) >>= λ data,
      (match instanceofViewElement h input with
       | Some name =>
           this_fire ("element:" +:+ name) [VRef data; consumable; conversionApi]
       | None =>
           if instanceofViewText h input
           then this_fire "text" [VRef data; consumable; conversionApi]
           else this_fire "documentFragment" [VRef data; consumable; conversionApi]
       end) >>= λ _,
      getHeap >>= λ h', ret (getProp h' (VRef data) "output")
  end.

(** [_convertChildren( input, consumable, additionalData = {} )]. *)
Definition _convertChildren (fuel : nat) : ItemConverter :=
  convertChildrenWith (_convertItem fuel).

(** The step between the cleanup notification and the conversion of the
    item: the tracker is created from the view item. *)
Definition createConsumable (viewItem : Value) : M Value :=
  λ s, let '(h', r) := createFrom viewItem (heap s) in
       (mkState h' (log s ++ [LCreateConsumable viewItem]), r).

(** [convert( viewItem, additionalData = {} )]. *)
Definition convert (fuel : nat) (viewItem additionalData : Value) : M Value :=
  fire (_convertItem fuel) "viewCleanup" [viewItem] >>= λ _,
  createConsumable viewItem >>= λ consumable,
  _convertItem fuel viewItem consumable additionalData.

(** The children of a parent converted one after the other, in document
    order: each child gets the next unused reference for a request record
    of its own, merged from the same [additionalData]; the notification
    its class selects is fired on that record, and what the listeners
    leave in [output] is the result for that child. *)
Inductive ChildrenConverted (fuel : nat) (consumable additionalData : Value)
    : list loc → State → list Value → State → Prop :=
| converted_nil s :
    ChildrenConverted fuel consumable additionalData [] s [] s
| converted_cons child rest s data name s1 vs s2 :
    data = fresh (dom (heap s)) →
    Selected (heap s) (VRef child) name →
    fire (_convertItem fuel) name [VRef data; consumable; conversionApi]
      (mkState (<[data := ORecord (extend (heap s) additionalData (VRef child))]>
                  (heap s)) (log s))
      = (s1, Val tt) →
    ChildrenConverted fuel consumable additionalData rest s1 vs s2 →
    ChildrenConverted fuel consumable additionalData (child :: rest) s
      (getProp (heap s1) (VRef data) "output" :: vs) s2.

End Dispatcher.

(** ** A small dispatcher used in the examples *)

(** A listener that assigns [data.output = v]. *)
Definition setOutput (v : Value) : Callback :=
  λ args, match args with
          | VRef data :: _ =>
              Load data (λ o, match o with
                              | Some (ORecord f) =>
                                  Store data (ORecord (<["output" := v]> f)) (Ret tt)
                              | _ => Ret tt
                              end)
          | _ => Ret tt
          end.

(** Modelled from the spec: the tracker is not part of the sources.  "A
    facet can be consumed at most once per conversion pass; attempting to
    consume an already-consumed facet fails (returns falsy)". *)
Definition consume {A} (consumable : Value) (node : loc) (facet : string)
    (k : bool → Prog A) : Prog A :=
  match consumable with
  | VRef c =>
      Load c (λ o, match o with
                   | Some (OConsumable facets) =>
                       match facets !! (node, facet) with
                       | Some true =>
                           Store c (OConsumable (<[(node, facet) := false]> facets))
                                 (k true)
                       | _ => k false
                       end
                   | _ => k false
                   end)
  | _ => k false
  end.

(** A listener for text that follows the protocol: it assigns [output]
    only when it could consume the text. *)
Definition convertText (v : Value) : Callback :=
  λ args, match args with
          | VRef data :: consumable :: _ =>
              Load data (λ o, match o with
                              | Some (ORecord f) =>
                                  match f !! "input" with
                                  | Some (VRef node) =>
                                      consume consumable node "text"
                                        (λ ok, if ok then setOutput v args else Ret tt)
                                  | _ => Ret tt
                                  end
                              | _ => Ret tt
                              end)
          | _ => Ret tt
          end.

(** A tracker that offers the name of the view item it is created from. *)
Definition sampleCreateFrom (viewItem : Value) (h : Heap) : Heap * Outcome Value :=
  let c := fresh (dom h) in
  match viewItem with
  | VRef l => (<[c := OConsumable {[ (l, "name") := true ]}]> h, Val (VRef c))
  | _ => (<[c := OConsumable ∅]> h, Val (VRef c))
  end.

(** A view tree: a fragment holding [<p>], a text node and [<b>]; two
    model nodes; a tracker offering the text of the text node. *)
Definition sampleHeap : Heap :=
  <[1%positive := OViewFragment [2%positive; 3%positive; 4%positive]]>
  (<[2%positive := OViewElement "p" []]>
  (<[3%positive := OViewText "hi"]>
  (<[4%positive := OViewElement "b" []]>
  (<[5%positive := OConsumable {[ (3%positive, "text") := true ]}]>
  (<[6%positive := ORecord {[ "name" := VStr "paragraph" ]}]>
  (<[7%positive := ORecord {[ "name" := VStr "bold" ]}]> ∅)))))).

Definition sampleState : State := mkState sampleHeap [].

(** Listeners that convert [<p>] and [<b>] to the two model nodes and
    have nothing for text. *)
Definition sampleListeners : list (string * Callback) :=
  [ ("element:p", setOutput (VRef 6%positive));
    ("element:b", setOutput (VRef 7%positive)) ].

(** A listener for text that produces output and consumes nothing. *)
Definition eagerListeners : list (string * Callback) :=
  [ ("text", setOutput (VStr "x")) ].

(** A listener that assigns a new array of the given elements to
    [data.output]. *)
Definition setOutputArray (elems : list Value) : Callback :=
  λ args, Alloc (OArray elems) (λ a, setOutput (VRef a) args).

(** Listeners whose results are [0] for [<p>], an array of two strings
    for text, and a string for [<b>]. *)
Definition mixedListeners : list (string * Callback) :=
  [ ("element:p", setOutput (VNum 0));
    ("text", setOutputArray [VStr "a"; VStr "b"]);
    ("element:b", setOutput (VStr "c")) ].

(** The sample state once the three children of the fragment have been
    converted. *)
Definition sampleConverted : State :=
  Eval vm_compute in
    (mapConvert (_convertItem sampleListeners VNull 1) (VRef 5%positive) VUndefined
       [2%positive; 3%positive; 4%positive] sampleState).1.

(** ** Additional data shared by the children *)

(** A listener that assigns [data.output = data.context]. *)
Definition outputContext : Callback :=
  λ args, match args with
          | VRef data :: _ =>
              Load data (λ o, match o with
                              | Some (ORecord f) =>
                                  Store data
                                    (ORecord (<["output" :=
                                                  default VUndefined (f !! "context")]> f))
                                    (Ret tt)
                              | _ => Ret tt
                              end)
          | _ => Ret tt
          end.

(** One listener for every element, and none for text. *)
Definition contextListeners : list (string * Callback) :=
  [ ("element", outputContext) ].

(** The sample heap with an object to be passed as [additionalData]: its
    [context] is a reference to another object. *)
Definition contextState : State :=
  mkState (<[8%positive := ORecord {[ "context" := VRef 9%positive ]}]>
           (<[9%positive := ORecord {[ "name" := VStr "$root" ]}]> sampleHeap)) [].

(** That state once the three children of the fragment have been
    converted with this additional data. *)
Definition contextConverted : State :=
  Eval vm_compute in
    (mapConvert (_convertItem contextListeners VNull 1) (VRef 5%positive)
       (VRef 8%positive) [2%positive; 3%positive; 4%positive] contextState).1.

(** A computation that removes no object, however it ends. *)
Definition keeping {A} (m : M A) : Prop :=
  ∀ s, dom (heap s) ⊆ dom (heap (m s).1).

(** ** What a nested conversion may enter in the trace *)

(** The names of the three notifications of an item. *)
Definition isItemName (name : string) : bool :=
  String.prefix "element:" name || String.eqb name "text"
  || String.eqb name "documentFragment".

(** An entry, with everything under it, is the notification of an item:
    it has one of the three names and carries a request record, a tracker
    and the conversion interface. *)
Fixpoint itemEntry (conversionApi : Value) (e : LogEntry) : bool :=
  match e with
  | LFire name args nested =>
      isItemName name
      && match args with
         | [VRef _; _; api] => bool_decide (api = conversionApi)
         | _ => false
         end
      && forallb (itemEntry conversionApi) nested
  | LCreateConsumable _ => false
  end.

(** Between two states the trace grows by notifications of items only. *)
Definition grows (conversionApi : Value) (s s' : State) : Prop :=
  ∃ new, log s' = log s ++ new ∧ forallb (itemEntry conversionApi) new = true.

(** A computation under which the trace grows so, however it ends. *)
Definition growing (conversionApi : Value) {A} (m : M A) : Prop :=
  ∀ s, grows conversionApi s (m s).1.

(** ** Converters that walk a whole tree *)

(** The view tree found under a reference. *)
#[warnings="-register-all"]
Inductive VTree : Type :=
| VTElement (name : string) (children : list VTree)
| VTFragment (children : list VTree)
| VTText (data : string).

(** The view tree found under [l], when it is no deeper than [fuel]. *)
Fixpoint vtree (fuel : nat) (h : Heap) (l : loc) : option VTree :=
  match fuel with
  | O => None
  | S fuel' =>
      match h !! l with
      | Some (OViewElement name children) =>
          VTElement name <$> mapM (vtree fuel' h) children
      | Some (OViewFragment children) =>
          VTFragment <$> mapM (vtree fuel' h) children
      | Some (OViewText data) => Some (VTText data)
      | _ => None
      end
  end.

(** The texts of the leaves of a view tree, in document order; a text
    node without characters gives nothing. *)
Fixpoint leaves (t : VTree) : list Value :=
  match t with
  | VTElement _ children => flat_map leaves children
  | VTFragment children => flat_map leaves children
  | VTText data => if String.eqb data "" then [] else [VStr data]
  end.

(** A converter as in the documentation of the class:
    [data.output = conversionApi.convertChildren( data.input, consumable, data )]. *)
Definition descend : Callback :=
  λ args, match args with
          | VRef data :: consumable :: _ =>
              Load data (λ o,
                match o with
                | Some (ORecord f) =>
                    CallConvertChildren (default VUndefined (f !! "input"))
                      consumable (VRef data)
                      (λ children, setOutput children args)
                | _ => Ret tt
                end)
          | _ => Ret tt
          end.

(** A converter for text: [data.output = data.input.data]. *)
Definition textData : Callback :=
  λ args, match args with
          | VRef data :: _ =>
              Load data (λ o,
                match o with
                | Some (ORecord f) =>
                    match f !! "input" with
                    | Some (VRef node) =>
                        Load node (λ n,
                          match n with
                          | Some (OViewText d) => setOutput (VStr d) args
                          | _ => Ret tt
                          end)
                    | _ => Ret tt
                    end
                | _ => Ret tt
                end)
          | _ => Ret tt
          end.

(** Every element and every fragment is converted to the conversion of
    its children, every text node to its characters. *)
Definition treeListeners : list (string * Callback) :=
  [ ("element", descend); ("documentFragment", descend); ("text", textData) ].

(** What such a conversion returns for a tree: the characters of a text
    node, and for an element or a fragment an array of the texts of its
    leaves. *)
Definition walked (h : Heap) (t : VTree) (v : Value) : Prop :=
  match t with
  | VTText data => v = VStr data
  | _ => ∃ arr, v = VRef arr ∧ h !! arr = Some (OArray (leaves t))
  end.

(** A deeper view tree: a fragment holding [<p>] with the text ["one"]
    and [<b>] around an empty text, and the text ["two"]. *)
Definition deepHeap : Heap :=
  <[1%positive := OViewFragment [2%positive; 6%positive]]>
  (<[2%positive := OViewElement "p" [3%positive; 4%positive]]>
  (<[3%positive := OViewText "one"]>
  (<[4%positive := OViewElement "b" [5%positive]]>
  (<[5%positive := OViewText ""]>
  (<[6%positive := OViewText "two"]> ∅))))).

(** A listener that raises an error. *)
Definition failing (e : Value) : Callback := λ _, Throw e.

(** The sample listeners, with a converter for text that fails. *)
Definition failingListeners : list (string * Callback) :=
  [ ("element:p", setOutput (VRef 6%positive));
    ("text", failing (VStr "no text"));
    ("element:b", setOutput (VRef 7%positive)) ].

(** The sample state once [<p>] has been converted by these. *)
Definition failingAfterFirst : State :=
  Eval vm_compute in
    (mapConvert (_convertItem failingListeners VNull 1) (VRef 5%positive) VUndefined
       [2%positive] sampleState).1.

End ViewConversion.

(* ===================================================================== *)
(** * The insert operation *)
(* ===================================================================== *)

Module Insert.

(** ** Model nodes, positions and the store *)

(** A model node: an element with its name and its children, or a text
    node with its characters. *)
Inductive Node : Type :=
| Element (name : string) (children : list loc)
| Text (data : string).

(** A position: the root it belongs to and the path from that root. *)
Record Position : Type := mkPosition {
  root : loc;
  path : list nat
}.

(** Node objects and position objects, each under its reference. *)
Record Store : Type := mkStore {
  nodes : gmap loc Node;
  positions : gmap loc Position
}.

Record Range : Type := mkRange {
  range_start : Position;
  range_end : Position
}.

(** What the constructor accepts for [nodes]: a node or a string, or an
    ordered collection of these. *)
Inductive NodeLike : Type :=
| ANode (l : loc)
| AString (s : string).

Inductive NodeSet : Type :=
| One (x : NodeLike)
| Many (xs : list NodeLike).

(** ** Values read from a document, and base versions *)

(** A parsed JSON value. *)
#[warnings="-register-all"]
Inductive JSON : Type :=
| JNull
| JBool (b : bool)
| JNum (z : Z)
| JStr (s : string)
| JArr (elems : list JSON)
| JObj (fields : list (string * JSON)).

Fixpoint assoc (key : string) (fields : list (string * JSON)) : option JSON :=
  match fields with
  | [] => None
  | (k, v) :: rest => if String.eqb k key then Some v else assoc key rest
  end.

(** The property [json.key]; [None] is [undefined]. *)
Definition getField (json : JSON) (key : string) : option JSON :=
  match json with
  | JObj fields => assoc key fields
  | _ => None
  end.

(** Truthiness of what a property read gives. *)
Definition jsonTruthy (v : option JSON) : bool :=
  match v with
  | None | Some JNull => false
  | Some (JBool b) => b
  | Some (JNum z) => negb (z =? 0)%Z
  | Some (JStr s) => negb (String.eqb s "")
  | Some (JArr _) | Some (JObj _) => true
  end.

(** What [for ( let child of v )] goes through: the elements of an array,
    the characters of a string; anything else is not iterable. *)
Definition iterate (v : option JSON) : option (list JSON) :=
  match v with
  | Some (JArr elems) => Some elems
  | Some (JStr s) => Some ((λ c, JStr (String c "")) <$> String.list_ascii_of_string s)
  | _ => None
  end.

(** The nearest double of an integer, ties going to the even
    significand of 53 bits: what an integral result of an addition of
    doubles is rounded to.  An integer below [2^53] in size is a double
    already. *)
Definition roundDouble (z : Z) : Z :=
  let e := (Z.log2 (Z.abs z) - 52)%Z in
  if (e <=? 0)%Z then z
  else
    let q := Z.shiftr (Z.abs z) e in
    let r := Z.land (Z.abs z) (Z.ones e) in
    let half := Z.shiftl 1 (e - 1) in
    let up := (half <? r)%Z || ((r =? half)%Z && Z.odd q) in
    (Z.sgn z * Z.shiftl (if up then q + 1 else q) e)%Z.

(** What [v + 1] evaluates to: a number, [NaN], a string, or the string
    of an array or of an object followed by more characters.  The string
    of an array or of an object is what their prototypes make it, and is
    kept as the value it is the string of. *)
Inductive SumValue : Type :=
| SumNum (z : Z)
| SumNaN
| SumStr (s : string)
| SumStringOf (v : JSON) (s : string).

(** [v + 1].  Two numbers are added as doubles; [null], [false] and
    [true] count as 0, 0 and 1; [undefined] gives [NaN]; a string, and
    an array or an object through its string, is followed by ["1"]. *)
Definition plusOne (v : option JSON) : SumValue :=
  match v with
  | None => SumNaN
  | Some JNull => SumNum 1
  | Some (JBool b) => SumNum (if b then 2 else 1)
  | Some (JNum z) => SumNum (roundDouble (z + 1))
  | Some (JStr s) => SumStr (s +:+ "1")
  | Some (JArr _ as j) | Some (JObj _ as j) => SumStringOf j "1"
  end.

(** The operation.  The node list is held as the ordered list of the
    references it contains.  The base version is the value that was
    passed, which no constructor checks: a value of a parsed document, or
    [undefined] ([None]). *)
Record InsertOperation : Type := mkInsertOperation {
  position : loc;
  nodeList : list loc;
  baseVersion : option JSON
}.

Record RemoveOperation : Type := mkRemoveOperation {
  sourcePosition : loc;
  howMany : nat;
  removeBaseVersion : SumValue
}.

(** ** Collaborators of the operation *)

(** Modelled from the spec: [Position.createFromPosition] is not part of
    the sources; the copy is "created by value from the supplied position"
    and "never aliases caller's position object". *)
Definition createFromPosition (p : loc) (σ : Store) : option (Store * loc) :=
  match positions σ !! p with
  | Some pos =>
      let p' := fresh (dom (positions σ)) in
      Some (mkStore (nodes σ) (<[p' := mkPosition (root pos) (path pos)]> (positions σ)), p')
  | None => None
  end.

(** The normalization of an ordered collection: nodes are kept, in
    order, and a string becomes a new text node. *)
Fixpoint normalizeList (xs : list NodeLike) (h : gmap loc Node)
    : gmap loc Node * list loc :=
  match xs with
  | [] => (h, [])
  | ANode l :: rest =>
      let '(h', ls) := normalizeList rest h in (h', l :: ls)
  | AString s :: rest =>
      let l := fresh (dom h) in
      let '(h', ls) := normalizeList rest (<[l := Text s]> h) in (h', l :: ls)
  end.

(** Modelled from the spec: [normalizeNodes] of the writer is not part of
    the sources; it turns "a single node, a string, or an ordered
    collection of node-likes" into "a canonical ordered node list". *)
Definition normalizeNodes (ns : NodeSet) (h : gmap loc Node)
    : gmap loc Node * list loc :=
  match ns with
  | One x => normalizeList [x] h
  | Many xs => normalizeList xs h
  end.

(** Modelled from the spec: the offset size of a node, which [NodeList]
    sums up; "text nodes count their character length and element nodes
    count as one". *)
Definition offsetSize (n : Node) : nat :=
  match n with
  | Element _ _ => 1
  | Text data => String.length data
  end.

(** Modelled from the spec: [NodeList.maxOffset], "the total
    offset-length of the inserted node list (sum of each node's size)". *)
Fixpoint maxOffset (h : gmap loc Node) (ls : list loc) : option nat :=
  match ls with
  | [] => Some 0
  | l :: rest =>
      match h !! l, maxOffset h rest with
      | Some n, Some k => Some (offsetSize n + k)
      | _, _ => None
      end
  end.

(** One function after the other over a list, threading the node store. *)
Fixpoint cloneAll (cl : loc → gmap loc Node → option (gmap loc Node * loc))
    (ls : list loc) (h : gmap loc Node) : option (gmap loc Node * list loc) :=
  match ls with
  | [] => Some (h, [])
  | l :: rest =>
      match cl l h with
      | Some (h1, l') =>
          match cloneAll cl rest h1 with
          | Some (h2, ls') => Some (h2, l' :: ls')
          | None => None
          end
      | None => None
      end
  end.

(** Modelled from the spec: [node.clone( true )] of [Element] and [Text]
    is not part of the sources; it is "deep-cloned (including
    descendants)".  A new text node has the same characters; a new
    element has the same name and clones of the children.  [fuel] bounds
    the depth of the tree. *)
Fixpoint cloneNode (fuel : nat) (l : loc) (h : gmap loc Node)
    : option (gmap loc Node * loc) :=
  match fuel with
  | O => None
  | S fuel' =>
      match h !! l with
      | Some (Text data) =>
          let l' := fresh (dom h) in Some (<[l' := Text data]> h, l')
      | Some (Element name children) =>
          match cloneAll (cloneNode fuel') children h with
          | Some (h1, children') =>
              let l' := fresh (dom h1) in
              Some (<[l' := Element name children']> h1, l')
          | None => None
          end
      | None => None
      end
  end.

(** ** The operation *)

Section Operation.

(** [writer.insert], which is not part of the sources: it inserts the
    nodes it is given at the position, may change node objects in place
    while doing so, and returns the range of what was inserted; it
    raises an error on a position it cannot use. *)
Variable writer_insert : loc → list loc → Store → option (Store * Range).

(** [new InsertOperation( position, nodes, baseVersion )]. *)
Definition InsertOperation_new (position0 : loc) (nodes0 : NodeSet)
    (baseVersion0 : option JSON) (σ : Store) : option (Store * InsertOperation) :=
  match createFromPosition position0 σ with
  | Some (σ1, p) =>
      let '(h2, ls) := normalizeNodes nodes0 (nodes σ1) in
      Some (mkStore h2 (positions σ1), mkInsertOperation p ls baseVersion0)
  | None => None
  end.

(** [get type()]. *)
Definition type (op : InsertOperation) : string := "insert".

(** [clone()]. *)
Definition clone (fuel : nat) (op : InsertOperation) (σ : Store)
    : option (Store * InsertOperation) :=
  match cloneAll (cloneNode fuel) (nodeList op) (nodes σ) with
  | Some (h1, nodes') =>
      InsertOperation_new (position op) (Many (ANode <$> nodes')) (baseVersion op)
        (mkStore h1 (positions σ))
  | None => None
  end.

(** [getReversed()]. *)
Definition getReversed (op : InsertOperation) (σ : Store) : option RemoveOperation :=
  match maxOffset (nodes σ) (nodeList op) with
  | Some width => Some (mkRemoveOperation (position op) width (plusOne (baseVersion op)))
  | None => None
  end.

(** [_execute()]: the operation afterwards, the store afterwards and the
    range returned. *)
Definition _execute (fuel : nat) (op : InsertOperation) (σ : Store)
    : option (InsertOperation * Store * Range) :=
  let originalNodes := nodeList op in
  match cloneAll (cloneNode fuel) originalNodes (nodes σ) with
  | Some (h1, nodes') =>
      let op' := mkInsertOperation (position op) nodes' (baseVersion op) in
      match writer_insert (position op) originalNodes (mkStore h1 (positions σ)) with
      | Some (σ2, range) => Some (op', σ2, range)
      | None => None
      end
  | None => None
  end.

(** [static get className()]. *)
Definition className : string := "engine.model.operation.InsertOperation".

End Operation.

(** ** Deserialization *)

(** The roots of a document, by name. *)
Abbreviation Document := (list (string * loc)).

Section Serialization.

(** [Element.fromJSON], [Text.fromJSON] and [Position.fromJSON], which
    are not part of the sources. *)
Variable Element_fromJSON : JSON → gmap loc Node → option (gmap loc Node * loc).
Variable Text_fromJSON : JSON → gmap loc Node → option (gmap loc Node * loc).
Variable Position_fromJSON : option JSON → Document → Store → option (Store * loc).

(** The loop of [fromJSON] over [json.nodes].  Reading [child.name] of
    [null] is a [TypeError]. *)
Fixpoint decodeChildren (nodes0 : list JSON) (h : gmap loc Node)
    : option (gmap loc Node * list loc) :=
  match nodes0 with
  | [] => Some (h, [])
  | child :: rest =>
      match child with
      | JNull => None
      | _ =>
          match (if jsonTruthy (getField child "name")
                 then Element_fromJSON child h
                 else Text_fromJSON child h) with
          | Some (h1, l) =>
              match decodeChildren rest h1 with
              | Some (h2, ls) => Some (h2, l :: ls)
              | None => None
              end
          | None => None
          end
      end
  end.

(** [static fromJSON( json, document )]. *)
Definition fromJSON (json : JSON) (document : Document) (σ : Store)
    : option (Store * InsertOperation) :=
  match iterate (getField json "nodes") with
  | Some nodes0 =>
      match decodeChildren nodes0 (nodes σ) with
      | Some (h1, children) =>
          match Position_fromJSON (getField json "position") document
                  (mkStore h1 (positions σ)) with
          | Some (σ2, p) =>
              InsertOperation_new p (Many (ANode <$> children))
                (getField json "baseVersion") σ2
          | None => None
          end
      | None => None
      end
  | None => None
  end.

End Serialization.

(** Modelled from the spec: [Text.fromJSON] is not part of the sources; a
    text-kind record is decoded "delegating to the respective node type's
    own [fromJSON]", which builds a text node from the characters of the
    record. *)
Definition textFromJSON (json : JSON) (h : gmap loc Node)
    : option (gmap loc Node * loc) :=
  let data := match getField json "data" with
              | Some (JStr d) => d
              | _ => ""
              end in
  let l := fresh (dom h) in Some (<[l := Text data]> h, l).

(** Modelled from the spec: [Element.fromJSON] is not part of the
    sources; it builds an element from the name of the record and from
    its children, each decoded by the same discrimination as in
    [fromJSON].  [fuel] bounds the depth of the record. *)
Fixpoint elementFromJSON (fuel : nat) (json : JSON) (h : gmap loc Node)
    : option (gmap loc Node * loc) :=
  match fuel with
  | O => None
  | S fuel' =>
      match getField json "name" with
      | Some (JStr name) =>
          match decodeChildren (elementFromJSON fuel') textFromJSON
                  (default [] (iterate (getField json "children"))) h with
          | Some (h1, children) =>
              let l := fresh (dom h1) in
              Some (<[l := Element name children]> h1, l)
          | None => None
          end
      | _ => None
      end
  end.

(** How one record is decoded in the loop of [fromJSON], with these two
    decoders. *)
Definition decodeOne (fuel : nat) (j : JSON) (h : gmap loc Node)
    : option (gmap loc Node * loc) :=
  if jsonTruthy (getField j "name") then elementFromJSON fuel j h else textFromJSON j h.

(** The path of a serialized position. *)
Fixpoint pathFromJSON (elems : list JSON) : option (list nat) :=
  match elems with
  | [] => Some []
  | JNum z :: rest =>
      if (0 <=? z)%Z then cons (Z.to_nat z) <$> pathFromJSON rest else None
  | _ :: _ => None
  end.

Fixpoint getRoot (document : Document) (name : string) : option loc :=
  match document with
  | [] => None
  | (k, r) :: rest => if String.eqb k name then Some r else getRoot rest name
  end.

(** Modelled from the spec: [Position.fromJSON] is not part of the
    sources; the document is "needed to resolve [position] which
    references a live root", and a position that cannot be resolved is an
    error. *)
Definition positionFromJSON (json : option JSON) (document : Document) (σ : Store)
    : option (Store * loc) :=
  match json with
  | Some j =>
      match getField j "root", getField j "path" with
      | Some (JStr name), Some (JArr elems) =>
          match getRoot document name, pathFromJSON elems with
          | Some r, Some pth =>
              let p := fresh (dom (positions σ)) in
              Some (mkStore (nodes σ) (<[p := mkPosition r pth]> (positions σ)), p)
          | _, _ => None
          end
      | _, _ => None
      end
  | None => None
  end.

(** Modelled from the spec: the persisted form of a node, which is
    written by code that is not part of the sources; "each node record
    discriminates element-vs-text by field presence", an element record
    having a name and its children, a text record its characters. *)
Fixpoint nodeToJSON (fuel : nat) (h : gmap loc Node) (l : loc) : option JSON :=
  match fuel with
  | O => None
  | S fuel' =>
      match h !! l with
      | Some (Text data) => Some (JObj [("data", JStr data)])
      | Some (Element name children) =>
          (λ cs, JObj [("name", JStr name); ("children", JArr cs)])
            <$> mapM (nodeToJSON fuel' h) children
      | None => None
      end
  end.

Fixpoint rootName (document : Document) (r : loc) : option string :=
  match document with
  | [] => None
  | (k, r') :: rest => if Pos.eqb r' r then Some k else rootName rest r
  end.

(** Modelled from the spec: the persisted form of the operation, "a
    record with fields [{baseVersion, position, nodes, className}]"; a
    field that is [undefined] is not written. *)
Definition toJSON (fuel : nat) (document : Document) (op : InsertOperation)
    (σ : Store) : option JSON :=
  match positions σ !! position op with
  | Some p =>
      match rootName document (root p), mapM (nodeToJSON fuel (nodes σ)) (nodeList op) with
      | Some name, Some ns =>
          Some (JObj ([ ("__className", JStr className) ]
                      ++ match baseVersion op with
                         | Some v => [ ("baseVersion", v) ]
                         | None => []
                         end
                      ++ [ ("position",
                            JObj [ ("root", JStr name);
                                   ("path", JArr ((λ i, JNum (Z.of_nat i)) <$> path p)) ]);
                           ("nodes", JArr ns) ]))
      | _, _ => None
      end
  | None => None
  end.

(** An operation that inserts an element with the empty name at
    [(root, 0)] of the document of the scenario. *)
Definition emptyNameStore : Store :=
  mkStore
    (<[1%positive := Element "$root" []]>
     (<[2%positive := Element "" []]> ∅))
    (<[1%positive := mkPosition 1%positive [0]]> ∅).

Definition emptyNameOp : InsertOperation :=
  mkInsertOperation 1%positive [2%positive] (Some (JNum 0)).

Definition scenarioDocument : Document := [("main", 1%positive)].

(** Its persisted form. *)
Definition emptyNameJSON : JSON :=
  JObj [ ("__className", JStr "engine.model.operation.InsertOperation");
         ("baseVersion", JNum 0);
         ("position", JObj [ ("root", JStr "main"); ("path", JArr [JNum 0]) ]);
         ("nodes", JArr [ JObj [ ("name", JStr ""); ("children", JArr []) ] ]) ].

(** ** Trees held in the store *)

(** The tree found under a reference, each node with its reference. *)
#[warnings="-register-all"]
Inductive LTree : Type :=
| LElement (l : loc) (name : string) (children : list LTree)
| LText (l : loc) (data : string).

(** The tree found under [l], when it is no deeper than [fuel]. *)
Fixpoint view (fuel : nat) (h : gmap loc Node) (l : loc) : option LTree :=
  match fuel with
  | O => None
  | S fuel' =>
      match h !! l with
      | Some (Text data) => Some (LText l data)
      | Some (Element name children) =>
          LElement l name <$> mapM (view fuel' h) children
      | None => None
      end
  end.

(** The shape of a tree: names, characters and order, without the
    references. *)
#[warnings="-register-all"]
Inductive Tree : Type :=
| TElement (name : string) (children : list Tree)
| TText (data : string).

Fixpoint shape (t : LTree) : Tree :=
  match t with
  | LElement _ name children => TElement name (shape <$> children)
  | LText _ data => TText data
  end.

(** The references of the node objects of a tree. *)
Fixpoint locs (t : LTree) : list loc :=
  match t with
  | LElement l _ children => l :: mjoin (locs <$> children)
  | LText l _ => [l]
  end.

(** Every element of the tree has a name that is not the empty string. *)
Fixpoint named (t : LTree) : bool :=
  match t with
  | LElement _ name children => negb (String.eqb name "") && forallb named children
  | LText _ _ => true
  end.

(** The offset size of a node, read off its shape. *)
Definition treeSize (t : Tree) : nat :=
  match t with
  | TElement _ _ => 1
  | TText data => String.length data
  end.

(** [x] is [l] or a descendant of [l]. *)
Inductive reaches (h : gmap loc Node) : loc → loc → Prop :=
| reaches_refl l : reaches h l l
| reaches_child l name children c x :
    h !! l = Some (Element name children) → c ∈ children → reaches h c x →
    reaches h l x.

(** What the insertion of nodes may change: the nodes it is given and
    their descendants, and the tree the position belongs to.  Every other
    node object is left as it is. *)
Definition writer_local
    (writer_insert : loc → list loc → Store → option (Store * Range)) : Prop :=
  ∀ pos ls σ σ' range x,
    writer_insert pos ls σ = Some (σ', range) →
    (∀ l, l ∈ ls → ¬ reaches (nodes σ) l x) →
    (∀ p, positions σ !! pos = Some p → ¬ reaches (nodes σ) (root p) x) →
    nodes σ' !! x = nodes σ !! x.

(** The offset-length of what is passed to the constructor. *)
Definition likeSize (h : gmap loc Node) (x : NodeLike) : option nat :=
  match x with
  | ANode l => offsetSize <$> h !! l
  | AString s => Some (String.length s)
  end.

Definition items (ns : NodeSet) : list NodeLike :=
  match ns with
  | One x => [x]
  | Many xs => xs
  end.

(** ** The scenario of the specification *)

(** A root element, a text node ["ab"] and an element [x]; a position
    object for [(root, 0)]. *)
Definition scenarioStore : Store :=
  mkStore
    (<[1%positive := Element "$root" []]>
     (<[2%positive := Text "ab"]>
     (<[3%positive := Element "x" []]> ∅)))
    (<[1%positive := mkPosition 1%positive [0]]> ∅).

(** The operation of the scenario, as the constructor builds it: the
    position is a copy under a reference of its own. *)
Definition scenarioOp : InsertOperation :=
  mkInsertOperation 2%positive [2%positive; 3%positive] (Some (JNum 5)).

Definition scenarioOpStore : Store :=
  mkStore (nodes scenarioStore)
          (<[2%positive := mkPosition 1%positive [0]]> (positions scenarioStore)).

(** A writer for the examples: the nodes become the first children of the
    root of the position, and an inserted text node loses its characters,
    as when it is merged into a neighbour. *)
Definition crop (n : Node) : Node :=
  match n with
  | Text _ => Text ""
  | Element name children => Element name children
  end.

Definition sampleInsert (pos : loc) (ls : list loc) (σ : Store)
    : option (Store * Range) :=
  match positions σ !! pos with
  | Some p =>
      match nodes σ !! root p with
      | Some (Element name children) =>
          let h1 := <[root p := Element name (ls ++ children)]> (nodes σ) in
          Some (mkStore (foldr (alter crop) h1 ls) (positions σ), mkRange p p)
      | _ => None
      end
  | None => None
  end.

End Insert.

(* ===================================================================== *)
(** * Properties of the conversion dispatcher *)
(* ===================================================================== *)

Module ViewConversionFacts.
Import ViewConversion.

(** ** The state monad *)

Lemma bind_val {A B} (m : M A) (k : A → M B) s s' a :
  m s = (s', Val a) → (m >>= k) s = k a s'.
Proof. unfold bind. by intros ->. Qed.

(** A sequence returns a value only when its first part does. *)
Lemma bind_inv_val {A B} (m : M A) (k : A → M B) s s' a :
  (m >>= k) s = (s', Val a) → ∃ s1 b, m s = (s1, Val b) ∧ k b s1 = (s', Val a).
Proof. unfold bind. destruct (m s) as [s1 [b|e|]]; [eauto|done..]. Qed.

(** ** The selected notification *)

Lemma Selected_unique h input name1 name2 :
  Selected h input name1 → Selected h input name2 → name1 = name2.
Proof.
  intros H1 H2.
  destruct H1 as [l n cs -> Hl | l d -> Hl | He Ht];
    destruct H2 as [l' n' cs' E Hl' | l' d' E Hl' | He' Ht']; try done.
  - injection E as <-. congruence.
  - injection E as <-. congruence.
  - simpl in He'. by rewrite Hl in He'.
  - injection E as <-. congruence.
  - simpl in Ht'. by rewrite Hl in Ht'.
  - subst. simpl in He. by rewrite Hl' in He.
  - subst. simpl in Ht. by rewrite Hl' in Ht.
Qed.

Section Facts.

Variable listeners : list (string * Callback).
Variable conversionApi : Value.
Variable createFrom : Value → Heap → Heap * Outcome Value.

Abbreviation fire := (fire listeners).
Abbreviation _convertItem := (_convertItem listeners conversionApi).
Abbreviation _convertChildren := (_convertChildren listeners conversionApi).
Abbreviation convert := (convert listeners conversionApi createFrom).

(** A notification adds exactly one entry to the trace, whatever its
    listeners do. *)
Lemma fire_log ci name args s :
  ∃ nested, log (fire ci name args s).1 = log s ++ [LFire name args nested].
Proof.
  unfold ViewConversion.fire.
  destruct (callAll ci listeners name args _) as [s' r]. simpl. eauto.
Qed.

Lemma fire_heap_log ci name args s s' r :
  fire ci name args s = (s', r) →
  ∃ nested, log s' = log s ++ [LFire name args nested].
Proof. intros H. destruct (fire_log ci name args s) as [n Hn]. rewrite H in Hn. eauto. Qed.

Lemma notification_Selected h input : Selected h input (notification h input).
Proof.
  unfold notification.
  destruct (instanceofViewElement h input) as [name|] eqn:He.
  - destruct input as [| | | | | |l]; try done. simpl in He.
    destruct (h !! l) as [[]|] eqn:Hl; try done.
    injection He as <-. by eapply selected_element.
  - destruct (instanceofViewText h input) eqn:Ht.
    + destruct input as [| | | | | |l]; try done. simpl in Ht.
      destruct (h !! l) as [[]|] eqn:Hl; try done.
      by eapply selected_text.
    + by apply selected_other.
Qed.

(** [_convertItem] with one more unit of fuel, step by step: the request
    record is allocated, one notification is fired on it, and [output] is
    read back. *)
Lemma convertItem_unfold fuel input consumable additionalData s :
  _convertItem (S fuel) input consumable additionalData s =
  let data := fresh (dom (heap s)) in
  let s1 := mkState (<[data := ORecord (extend (heap s) additionalData input)]>
                       (heap s)) (log s) in
  match fire (_convertItem fuel) (notification (heap s) input)
             [VRef data; consumable; conversionApi] s1 with
  | (s2, Val _) => (s2, Val (getProp (heap s2) (VRef data) "output"))
  | (s2, Thrown e) => (s2, Thrown e)
  | (s2, Diverge) => (s2, Diverge)
  end.
Proof.
  cbn [ViewConversion._convertItem]. unfold bind at 1 2 3. cbn [getHeap alloc].
  unfold notification.
  destruct (instanceofViewElement (heap s) input); [|destruct (instanceofViewText _ _)];
    unfold bind; by destruct (ViewConversion.fire _ _ _ _ _) as [s2 [[]| |]].
Qed.

Lemma convertItem_fires_one_entry fuel input consumable additionalData s :
  ∃ name data nested,
    log (_convertItem (S fuel) input consumable additionalData s).1
      = log s ++ [LFire name [VRef data; consumable; conversionApi] nested]
    ∧ Selected (heap s) input name.
Proof.
  rewrite convertItem_unfold. cbv zeta.
  set (data := fresh (dom (heap s))).
  set (s1 := mkState _ _).
  destruct (ViewConversion.fire _ _ _ _ s1) as [s2 r] eqn:Hf.
  apply fire_heap_log in Hf as [nested Hlog].
  exists (notification (heap s) input), data, nested.
  split; [by destruct r as [[]| |]|apply notification_Selected].
Qed.

(** C1. Every call of [_convertItem] fires exactly one notification: the
    call adds a single entry to the trace, carrying the request record,
    the tracker and the conversion interface.  Its name is selected by
    the runtime class of the input, [element:<name>] for a view element
    of that name, [text] for a view text node and [documentFragment] for
    anything else; the input selects no other name, and the three names
    differ from each other. *)
Theorem convertItem_fires_exactly_one fuel input consumable additionalData s :
  ∃ name data nested,
    log (_convertItem (S fuel) input consumable additionalData s).1
      = log s ++ [LFire name [VRef data; consumable; conversionApi] nested]
    ∧ Selected (heap s) input name
    ∧ (∀ name', Selected (heap s) input name' → name' = name)
    ∧ (∀ n, "element:" +:+ n ≠ "text" ∧ "element:" +:+ n ≠ "documentFragment")
    ∧ "text" ≠ "documentFragment".
Proof.
  destruct (convertItem_fires_one_entry fuel input consumable additionalData s)
    as (name & data & nested & Hlog & Hsel).
  exists name, data, nested.
  split; [done|]. split; [done|].
  split; [intros name' H; by eapply Selected_unique|].
  done.
Qed.

(** C6. [convert] fires [viewCleanup], carrying the view item as it was
    passed, before anything else: the entry is the first [convert] adds to
    the trace.  What follows at the level of this call is at most the
    creation of the tracker, from that same view item and on the store
    the cleanup listeners left, and then the one notification of the item
    itself, in this order; both are there whenever [convert] returns a
    value. *)
Theorem convert_cleanup_first fuel viewItem additionalData s :
  let cleaned := fire (_convertItem fuel) "viewCleanup" [viewItem] s in
  let tracked := createFrom viewItem (heap cleaned.1) in
  ∃ nested rest,
    log (convert fuel viewItem additionalData s).1
      = log s ++ LFire "viewCleanup" [viewItem] nested :: rest
    ∧ log cleaned.1 = log s ++ [LFire "viewCleanup" [viewItem] nested]
    ∧ (rest = []
       ∨ rest = [LCreateConsumable viewItem]
       ∨ ∃ name data consumable nested',
           cleaned.2 = Val tt
           ∧ tracked.2 = Val consumable
           ∧ rest = [LCreateConsumable viewItem;
                     LFire name [VRef data; consumable; conversionApi] nested']
           ∧ Selected tracked.1 viewItem name)
    ∧ (∀ v, (convert fuel viewItem additionalData s).2 = Val v →
         ∃ name data consumable nested',
           rest = [LCreateConsumable viewItem;
                   LFire name [VRef data; consumable; conversionApi] nested']).
Proof.
  cbv zeta.
  destruct (convert fuel viewItem additionalData s) as [s' r] eqn:Hc. simpl.
  unfold ViewConversion.convert in Hc. unfold bind at 1 in Hc.
  destruct (ViewConversion.fire _ _ _ _ s) as [s1 r1] eqn:Hf.
  apply fire_heap_log in Hf as [nested Hlog1]. exists nested. simpl.
  destruct r1 as [[]|e|];
    [|injection Hc as <- <-; exists []; rewrite Hlog1;
      split; [done|split; [done|split; [by left|done]]]..].
  unfold bind at 1 in Hc. unfold createConsumable in Hc.
  destruct (createFrom viewItem (heap s1)) as [h2 r2].
  destruct r2 as [c|e|];
    [|injection Hc as <- <-; exists [LCreateConsumable viewItem]; simpl;
      rewrite Hlog1, <- app_assoc;
      split; [done|split; [done|split; [by right; left|done]]]..].
  destruct fuel as [|fuel].
  { injection Hc as <- <-. exists [LCreateConsumable viewItem]. simpl.
    rewrite Hlog1, <- app_assoc.
    split; [done|split; [done|split; [by right; left|done]]]. }
  set (s2 := mkState h2 _) in Hc.
  destruct (convertItem_fires_one_entry fuel viewItem c additionalData s2)
    as (name & data & nested' & Hlog3 & Hsel).
  exists [LCreateConsumable viewItem; LFire name [VRef data; c; conversionApi] nested'].
  rewrite Hc in Hlog3. simpl in Hlog3. rewrite Hlog3, Hlog1, <- !app_assoc. simpl.
  split; [done|]. split; [done|]. split; [right; right; eauto 10|eauto 10].
Qed.

Lemma callAll_no_listener ci (ls : list (string * Callback)) name args s :
  Forall (λ l, listensTo l.1 name = false) ls →
  callAll ci ls name args s = (s, Val tt).
Proof.
  induction 1 as [|[pattern cb] ls Hl _ IH]; [done|].
  simpl in *. rewrite Hl. unfold bind, ret. by rewrite IH.
Qed.

(** C7, as amended.  [_convertItem] ends the way the listeners of the
    selected notification end, and when they return, its value is what
    the [output] property of the request record holds at that moment.
    When no listener is registered for the selected notification the
    call returns [null], raises nothing, and leaves the store as it was
    but for the request record. *)
Theorem convertItem_returns_final_output fuel input consumable additionalData s :
  let data := fresh (dom (heap s)) in
  let name := notification (heap s) input in
  let s1 := mkState (<[data := ORecord (extend (heap s) additionalData input)]>
                       (heap s)) (log s) in
  let fired := fire (_convertItem fuel) name [VRef data; consumable; conversionApi] s1 in
  let res := _convertItem (S fuel) input consumable additionalData s in
  res.1 = fired.1
  ∧ res.2 = match fired.2 with
            | Val _ => Val (getProp (heap res.1) (VRef data) "output")
            | Thrown e => Thrown e
            | Diverge => Diverge
            end
  ∧ (Forall (λ l, listensTo l.1 name = false) listeners →
     res.2 = Val VNull ∧ heap res.1 = heap s1).
Proof.
  cbv zeta. rewrite convertItem_unfold. cbv zeta.
  set (data := fresh (dom (heap s))).
  set (s1 := mkState _ _).
  split; [by destruct (ViewConversion.fire _ _ _ _ s1) as [s2 [[]| |]]|].
  split; [by destruct (ViewConversion.fire _ _ _ _ s1) as [s2 [[]| |]]|].
  intros Hnone. unfold ViewConversion.fire.
  rewrite (callAll_no_listener _ _ _ _ _ Hnone). simpl.
  split; [|done]. unfold getProp. rewrite lookup_insert_eq. unfold extend.
  by rewrite lookup_insert_eq.
Qed.

(** ** Conversion of children *)

Lemma foldl_reduceStep h acc vs :
  foldl (reduceStep h) acc vs = acc ++ flat_map (contribution h) vs.
Proof.
  revert acc. induction vs as [|v vs IH]; intros acc; simpl.
  - by rewrite app_nil_r.
  - rewrite IH. unfold reduceStep, contribution.
    destruct (truthy v); simpl; by rewrite <- ?app_assoc.
Qed.

Lemma mapConvert_converted n consumable additionalData cs s vs s2 :
  ChildrenConverted listeners conversionApi n consumable additionalData cs s vs s2 →
  mapConvert (_convertItem (S n)) consumable additionalData cs s = (s2, Val vs).
Proof.
  induction 1 as [s|child rest s data name s1 vs s2 -> Hsel Hfire _ IH]; [done|].
  cbn [mapConvert].
  erewrite bind_val; last first.
  { rewrite convertItem_unfold. cbv zeta.
    rewrite <- (Selected_unique _ _ _ _ Hsel (notification_Selected _ _)).
    by rewrite Hfire. }
  by erewrite bind_val.
Qed.

Lemma converted_log n consumable additionalData cs s vs s2 :
  ChildrenConverted listeners conversionApi n consumable additionalData cs s vs s2 →
  ∃ entries,
    log s2 = log s ++ entries
    ∧ Forall2 (λ e (child : loc), ∃ name data nested,
                 e = LFire name [VRef data; consumable; conversionApi] nested)
              entries cs.
Proof.
  induction 1 as [s|child rest s data name s1 vs s2 -> Hsel Hfire _ IH].
  - exists []. by rewrite app_nil_r.
  - destruct IH as (entries & Hlog & Hall).
    apply fire_heap_log in Hfire as [nested Hlog1]. simpl in Hlog1.
    exists (LFire name [VRef (fresh (dom (heap s))); consumable; conversionApi] nested
              :: entries).
    rewrite Hlog, Hlog1, <- app_assoc. split; [done|].
    constructor; eauto.
Qed.

(** Whenever the conversion of the children returns, it went as
    [ChildrenConverted] describes. *)
Lemma converted_mapConvert n consumable additionalData cs s vs s2 :
  mapConvert (_convertItem (S n)) consumable additionalData cs s = (s2, Val vs) →
  ChildrenConverted listeners conversionApi n consumable additionalData cs s vs s2.
Proof.
  revert s vs. induction cs as [|child rest IH]; intros s vs.
  - intros [= <- <-]. constructor.
  - cbn [mapConvert]. unfold bind at 1.
    destruct (_convertItem (S n) (VRef child) consumable additionalData s)
      as [s1 [v|e|]] eqn:Hitem; [|done..].
    unfold bind at 1.
    destruct (mapConvert _ consumable additionalData rest s1)
      as [s2' [vs'|e|]] eqn:Hrest; [|done..].
    intros [= <- <-].
    rewrite convertItem_unfold in Hitem. cbv zeta in Hitem.
    destruct (ViewConversion.fire _ _ _ _ _) as [s1' [[]|e|]] eqn:Hfire; [|done..].
    injection Hitem as <- <-.
    eapply converted_cons; [done|apply notification_Selected|exact Hfire|by apply IH].
Qed.

Lemma convertChildren_converted n input consumable additionalData s cs s' v :
  getChildren input s = (s, Val cs) →
  _convertChildren (S n) input consumable additionalData s = (s', Val v) →
  ∃ vs s2, ChildrenConverted listeners conversionApi n consumable additionalData
             cs s vs s2.
Proof.
  intros Hch. unfold ViewConversion._convertChildren, convertChildrenWith.
  erewrite bind_val by exact Hch. unfold bind at 1.
  destruct (mapConvert _ consumable additionalData cs s) as [s2 [vs|e|]] eqn:Hmap;
    [|done..].
  intros _. exists vs, s2. by apply converted_mapConvert.
Qed.

(** What [_convertChildren] returns once its children are converted. *)
Lemma convertChildren_result n input consumable additionalData s cs vs s2 :
  getChildren input s = (s, Val cs) →
  ChildrenConverted listeners conversionApi n consumable additionalData cs s vs s2 →
  _convertChildren (S n) input consumable additionalData s
  = (mkState (<[fresh (dom (heap s2)) :=
                  OArray (flat_map (contribution (heap s2)) vs)]> (heap s2)) (log s2),
     Val (VRef (fresh (dom (heap s2))))).
Proof.
  intros Hch Hconv. unfold ViewConversion._convertChildren, convertChildrenWith.
  erewrite bind_val; [|exact Hch].
  erewrite bind_val; [|by apply mapConvert_converted].
  unfold bind, getHeap, alloc, ret. by rewrite foldl_reduceStep.
Qed.

Lemma extend_output h additionalData input :
  extend h additionalData input !! "output" = Some VNull.
Proof. unfold extend. by rewrite lookup_insert_eq. Qed.

Lemma extend_input h additionalData input :
  extend h additionalData input !! "input" = Some input.
Proof. unfold extend. rewrite lookup_insert_ne; [|done]. by rewrite lookup_insert_eq. Qed.

Lemma extend_other h additionalData input (k : string) :
  k ≠ "input" → k ≠ "output" →
  extend h additionalData input !! k = ownProps h additionalData !! k.
Proof. intros. unfold extend. by rewrite !lookup_insert_ne. Qed.

(** What the new request record reads: [data.k] is [additionalData.k],
    the very value, for every property but [input] and [output]. *)
Lemma extend_shares h additionalData input (k : string) :
  k ≠ "input" → k ≠ "output" →
  default VUndefined (extend h additionalData input !! k) = getProp h additionalData k.
Proof.
  intros Hi Ho. rewrite extend_other by done. unfold ownProps, getProp.
  destruct additionalData as [| | | | | |a]; try done.
  by destruct (h !! a) as [[]|].
Qed.

Lemma keeping_bind {A B} (m : M A) (k : A → M B) :
  keeping m → (∀ a, keeping (k a)) → keeping (m >>= k).
Proof.
  intros Hm Hk s. unfold bind. specialize (Hm s).
  destruct (m s) as [s1 [a|e|]]; simpl in *; [|done..].
  etrans; [exact Hm|apply Hk].
Qed.

Lemma keeping_ret {A} (a : A) : keeping (ret a).
Proof. by intros s. Qed.

Lemma keeping_alloc o : keeping (alloc o).
Proof. intros s. simpl. rewrite dom_insert. apply union_subseteq_r. Qed.

Lemma keeping_store l o : keeping (store l o).
Proof.
  intros s. unfold store.
  destruct (heap s !! l) as [o0|]; [|done].
  destruct (sameClass o0 o); [|done]. simpl. rewrite dom_insert. apply union_subseteq_r.
Qed.

Lemma keeping_getChildren input : keeping (getChildren input).
Proof.
  intros s. unfold getChildren.
  destruct input as [| | | | | |l]; try done.
  by destruct (heap s !! l) as [[]|].
Qed.

Lemma keeping_mapConvert ci consumable additionalData cs :
  (∀ i c a, keeping (ci i c a)) →
  keeping (mapConvert ci consumable additionalData cs).
Proof.
  intros Hci. induction cs as [|c cs IH]; [apply keeping_ret|].
  cbn [mapConvert]. apply keeping_bind; [apply Hci|]. intros v.
  apply keeping_bind; [exact IH|]. intros vs. apply keeping_ret.
Qed.

Lemma keeping_convertChildrenWith ci input consumable additionalData :
  (∀ i c a, keeping (ci i c a)) →
  keeping (convertChildrenWith ci input consumable additionalData).
Proof.
  intros Hci. unfold convertChildrenWith.
  apply keeping_bind; [apply keeping_getChildren|]. intros cs.
  apply keeping_bind; [by apply keeping_mapConvert|]. intros vs.
  apply keeping_bind; [by intros s|]. intros h.
  apply keeping_bind; [apply keeping_alloc|]. intros r. apply keeping_ret.
Qed.

Lemma keeping_run {A} ci (p : Prog A) :
  (∀ i c a, keeping (ci i c a)) → keeping (run ci p).
Proof.
  intros Hci. induction p as [a|e|o k IH|l k IH|l o k IH|i c a k IH|i c a k IH];
    cbn [run].
  - apply keeping_ret.
  - by intros s.
  - apply keeping_bind; [apply keeping_alloc|]. intros l. apply IH.
  - apply keeping_bind; [by intros s|]. intros h. apply IH.
  - apply keeping_bind; [apply keeping_store|]. intros _. apply IH.
  - apply keeping_bind; [apply Hci|]. intros v. apply IH.
  - apply keeping_bind; [by apply keeping_convertChildrenWith|]. intros v. apply IH.
Qed.

Lemma keeping_callAll ci (ls : list (string * Callback)) name args :
  (∀ i c a, keeping (ci i c a)) → keeping (callAll ci ls name args).
Proof.
  intros Hci. induction ls as [|[pattern cb] ls IH]; [apply keeping_ret|].
  cbn [callAll]. apply keeping_bind; [|intros _; exact IH].
  destruct (listensTo pattern name); [by apply keeping_run|apply keeping_ret].
Qed.

Lemma keeping_fire ci name args :
  (∀ i c a, keeping (ci i c a)) → keeping (fire ci name args).
Proof.
  intros Hci s. unfold ViewConversion.fire.
  pose proof (keeping_callAll ci listeners name args Hci (mkState (heap s) [])) as Hk.
  by destruct (callAll ci listeners name args (mkState (heap s) [])) as [s' r].
Qed.

Lemma keeping_convertItem fuel input consumable additionalData :
  keeping (_convertItem fuel input consumable additionalData).
Proof.
  revert input consumable additionalData.
  induction fuel as [|n IH]; intros input consumable additionalData s; [done|].
  rewrite convertItem_unfold. cbv zeta.
  set (s1 := mkState _ (log s)).
  pose proof (keeping_fire (_convertItem n) (notification (heap s) input)
                [VRef (fresh (dom (heap s))); consumable; conversionApi] IH s1) as Hk.
  assert (Hs1 : dom (heap s) ⊆ dom (heap s1))
    by (unfold s1; simpl; rewrite dom_insert; apply union_subseteq_r).
  destruct (ViewConversion.fire _ _ _ _ s1) as [s2 [[]|e|]]; simpl in *;
    by etrans; [exact Hs1|].
Qed.

(** The children converted so far leave every object in place, and the
    request record of the first of them among these. *)
Lemma converted_keeps n consumable additionalData cs s vs s2 :
  ChildrenConverted listeners conversionApi n consumable additionalData cs s vs s2 →
  dom (heap s) ⊆ dom (heap s2)
  ∧ (cs ≠ [] → fresh (dom (heap s)) ∈ dom (heap s2)).
Proof.
  induction 1 as [s|child rest s data name s1 vs s2 -> Hsel Hfire _ [IH _]].
  - done.
  - pose proof (keeping_fire (_convertItem n) name
                  [VRef (fresh (dom (heap s))); consumable; conversionApi]
                  (keeping_convertItem n)) as Hk.
    unfold keeping in Hk.
    specialize (Hk (mkState (<[fresh (dom (heap s)) :=
                                 ORecord (extend (heap s) additionalData (VRef child))]>
                               (heap s)) (log s))).
    rewrite Hfire in Hk. simpl in Hk. rewrite dom_insert in Hk.
    split; [|intros _; apply IH, Hk, elem_of_union_l, elem_of_singleton; done].
    etrans; [|exact IH]. etrans; [|exact Hk]. apply union_subseteq_r.
Qed.

Lemma converted_deterministic n consumable additionalData cs s vs s2 vs' s2' :
  ChildrenConverted listeners conversionApi n consumable additionalData cs s vs s2 →
  ChildrenConverted listeners conversionApi n consumable additionalData cs s vs' s2' →
  vs = vs' ∧ s2 = s2'.
Proof.
  intros H. revert vs' s2'.
  induction H as [s|child rest s data name s1 vs s2 -> Hsel Hfire _ IH];
    intros vs' s2' H'; inversion H' as [|? ? ? ? name' s1' vs0 ? -> Hsel' Hfire' Hrest'];
    subst; [done|].
  pose proof (Selected_unique _ _ _ _ Hsel Hsel') as <-.
  rewrite Hfire in Hfire'. injection Hfire' as <-.
  by destruct (IH _ _ Hrest') as [-> ->].
Qed.

Lemma converted_app_inv n consumable additionalData cs1 cs2 s vs s2 :
  ChildrenConverted listeners conversionApi n consumable additionalData
    (cs1 ++ cs2) s vs s2 →
  ∃ s1, ChildrenConverted listeners conversionApi n consumable additionalData
          cs1 s (take (length cs1) vs) s1
        ∧ ChildrenConverted listeners conversionApi n consumable additionalData
            cs2 s1 (drop (length cs1) vs) s2.
Proof.
  revert s vs. induction cs1 as [|c cs1 IH]; intros s vs H.
  - exists s. split; [apply converted_nil|done].
  - inversion H as [|? ? ? data name s1 vs0 ? Hd Hsel Hfire Hrest]; subst.
    destruct (IH _ _ Hrest) as (s' & H1 & H2).
    exists s'. split; [|done]. simpl. by econstructor.
Qed.

(** How each child is converted: the children before it have been
    converted; its request record is a new object, whose [output] is
    null, whose [input] is the child and whose every other property reads
    as it reads in [additionalData] at that moment; the notification its
    class selects is fired on that record, and what [output] then holds is
    its result. *)
Lemma converted_requests n consumable additionalData cs s vs s2 :
  ChildrenConverted listeners conversionApi n consumable additionalData cs s vs s2 →
  ∀ i child, cs !! i = Some child →
    ∃ si rec name s1,
      ChildrenConverted listeners conversionApi n consumable additionalData
        (take i cs) s (take i vs) si
      ∧ heap si !! fresh (dom (heap si)) = None
      ∧ rec !! "output" = Some VNull
      ∧ rec !! "input" = Some (VRef child)
      ∧ (∀ k : string, k ≠ "input" → k ≠ "output" →
           default VUndefined (rec !! k) = getProp (heap si) additionalData k)
      ∧ Selected (heap si) (VRef child) name
      ∧ fire (_convertItem n) name
          [VRef (fresh (dom (heap si))); consumable; conversionApi]
          (mkState (<[fresh (dom (heap si)) := ORecord rec]> (heap si)) (log si))
        = (s1, Val tt)
      ∧ vs !! i = Some (getProp (heap s1) (VRef (fresh (dom (heap si)))) "output").
Proof.
  induction 1 as [s|c rest s data name s1 vs s2 -> Hsel Hfire Hrest IH];
    intros i child Hi; [done|].
  destruct i as [|i].
  - injection Hi as <-.
    exists s, (extend (heap s) additionalData (VRef c)), name, s1.
    split; [apply converted_nil|]. split; [apply not_elem_of_dom, is_fresh|].
    split; [apply extend_output|]. split; [apply extend_input|].
    split; [intros k; apply extend_shares|]. done.
  - destruct (IH i child Hi) as (si & rec & name' & s1' & Hconv & Hrest').
    exists si, rec, name', s1'. split; [|exact Hrest'].
    simpl. by econstructor.
Qed.

(** The request records of two children are different objects. *)
Lemma converted_records_differ n consumable additionalData cs s vs i j si sj :
  (j < i)%nat → (i ≤ length cs)%nat →
  ChildrenConverted listeners conversionApi n consumable additionalData
    (take i cs) s (take i vs) si →
  ChildrenConverted listeners conversionApi n consumable additionalData
    (take j cs) s (take j vs) sj →
  fresh (dom (heap sj)) ≠ fresh (dom (heap si)).
Proof.
  intros Hji Hi Hci Hcj.
  assert (Hsplit : take i cs = take j cs ++ drop j (take i cs)).
  { rewrite <- (take_drop j (take i cs)) at 1. f_equal.
    rewrite take_take. f_equal. lia. }
  rewrite Hsplit in Hci. apply converted_app_inv in Hci as (s' & H1 & H2).
  rewrite length_take in H1, H2. replace (j `min` length cs) with j in * by lia.
  rewrite take_take in H1. replace (j `min` i) with j in H1 by lia.
  destruct (converted_deterministic _ _ _ _ _ _ _ _ _ H1 Hcj) as [_ ->].
  apply converted_keeps in H2 as [_ Hin].
  intros E. rewrite E in Hin. apply (is_fresh (dom (heap si))), Hin.
  intros Hnil. apply (f_equal length) in Hnil.
  rewrite length_drop, length_take in Hnil. simpl in Hnil. lia.
Qed.

(** C4. [_convertChildren] converts the children [cs] of a parent one
    after the other in document order, each on a request record of its
    own: whenever it returns a value the conversion went this way, and
    when the children so converted produce the results [vs], it returns a
    new array holding the results in that order, a null or absent result
    adding nothing: results [A, null, B] give [A, B].  The trace gets one
    notification per child.  The record of a child is a new object,
    different from the record of every other child; when its listeners
    are first called its [output] is null, whatever the listeners of the
    children before it assigned to theirs, its [input] is the child, and
    every other property reads as in [additionalData], the very value, so
    that a reference held there is shared by all the children. *)
Theorem convertChildren_in_order n input consumable additionalData s cs vs s2 :
  getChildren input s = (s, Val cs) →
  ChildrenConverted listeners conversionApi n consumable additionalData cs s vs s2 →
  let arr := fresh (dom (heap s2)) in
  let res := _convertChildren (S n) input consumable additionalData s in
  res.2 = Val (VRef arr)
  ∧ heap s2 !! arr = None
  ∧ heap res.1 = <[arr := OArray (flat_map (contribution (heap s2)) vs)]> (heap s2)
  ∧ contribution (heap s2) VNull = [] ∧ contribution (heap s2) VUndefined = []
  ∧ (∀ A B, vs = [A; VNull; B] →
       contribution (heap s2) A = [A] → contribution (heap s2) B = [B] →
       heap res.1 !! arr = Some (OArray [A; B]))
  ∧ (∃ entries,
       log res.1 = log s ++ entries
       ∧ Forall2 (λ e (child : loc), ∃ name data nested,
                    e = LFire name [VRef data; consumable; conversionApi] nested)
                 entries cs)
  ∧ (∀ i child, cs !! i = Some child →
       ∃ si rec name s1,
         ChildrenConverted listeners conversionApi n consumable additionalData
           (take i cs) s (take i vs) si
         ∧ heap si !! fresh (dom (heap si)) = None
         ∧ rec !! "output" = Some VNull
         ∧ rec !! "input" = Some (VRef child)
         ∧ (∀ k : string, k ≠ "input" → k ≠ "output" →
              default VUndefined (rec !! k) = getProp (heap si) additionalData k)
         ∧ Selected (heap si) (VRef child) name
         ∧ fire (_convertItem n) name
             [VRef (fresh (dom (heap si))); consumable; conversionApi]
             (mkState (<[fresh (dom (heap si)) := ORecord rec]> (heap si)) (log si))
           = (s1, Val tt)
         ∧ vs !! i = Some (getProp (heap s1) (VRef (fresh (dom (heap si)))) "output"))
  ∧ (∀ i j si sj, (j < i)%nat → (i ≤ length cs)%nat →
       ChildrenConverted listeners conversionApi n consumable additionalData
         (take i cs) s (take i vs) si →
       ChildrenConverted listeners conversionApi n consumable additionalData
         (take j cs) s (take j vs) sj →
       fresh (dom (heap sj)) ≠ fresh (dom (heap si)))
  ∧ (∀ s' v,
       _convertChildren (S n) input consumable additionalData s = (s', Val v) →
       ∃ vs' s2', ChildrenConverted listeners conversionApi n consumable
                    additionalData cs s vs' s2').
Proof.
  intros Hch Hconv arr res.
  assert (Hback : ∀ s' v,
       _convertChildren (S n) input consumable additionalData s = (s', Val v) →
       ∃ vs' s2', ChildrenConverted listeners conversionApi n consumable
                    additionalData cs s vs' s2')
    by (intros s' v; by apply convertChildren_converted).
  revert Hback. subst res.
  rewrite (convertChildren_result _ _ _ _ _ _ _ _ Hch Hconv). simpl. intros Hback.
  split; [done|]. split; [apply not_elem_of_dom, is_fresh|]. split; [done|].
  split; [done|]. split; [done|]. split.
  { intros A B -> HA HB. rewrite lookup_insert_eq. simpl. by rewrite HA, HB. }
  split; [by eapply converted_log|].
  split; [by eapply converted_requests|].
  split; [|exact Hback].
  intros i j si sj. by eapply converted_records_differ.
Qed.

(** C10. [_convertChildren] keeps a result by its truthiness: a falsy
    result ([null], [undefined], [0], the empty string, [false]) adds
    nothing; a result that is an array adds its elements, as they are,
    one level deep; any other truthy result is added itself. *)
Theorem convertChildren_keeps_truthy n input consumable additionalData s cs vs s2 :
  getChildren input s = (s, Val cs) →
  ChildrenConverted listeners conversionApi n consumable additionalData cs s vs s2 →
  let arr := fresh (dom (heap s2)) in
  let res := _convertChildren (S n) input consumable additionalData s in
  res.2 = Val (VRef arr)
  ∧ heap res.1 !! arr = Some (OArray (flat_map (contribution (heap s2)) vs))
  ∧ (∀ v, truthy v = false → contribution (heap s2) v = [])
  ∧ Forall (λ v, truthy v = false) [VNull; VUndefined; VNum 0; VStr ""; VBool false]
  ∧ (∀ l xs, heap s2 !! l = Some (OArray xs) → contribution (heap s2) (VRef l) = xs)
  ∧ (∀ v, truthy v = true → (∀ l xs, v = VRef l → heap s2 !! l ≠ Some (OArray xs)) →
       contribution (heap s2) v = [v]).
Proof.
  intros Hch Hconv arr res. subst res.
  rewrite (convertChildren_result _ _ _ _ _ _ _ _ Hch Hconv). simpl.
  split; [done|]. split; [by rewrite lookup_insert_eq|].
  split; [by intros v Hv; unfold contribution; rewrite Hv|].
  split; [by repeat constructor|].
  split; [by intros l xs Hl; unfold contribution; simpl; rewrite Hl|].
  intros v Hv Hna. unfold contribution. rewrite Hv.
  destruct v as [| | | | | |l]; try done. simpl.
  destruct (heap s2 !! l) as [[]|] eqn:Hl; try done.
  by destruct (Hna l elems).
Qed.

End Facts.

Lemma converted_cons_eq listeners conversionApi fuel consumable additionalData
    child rest s data name s1 v vs s2 :
  data = fresh (dom (heap s)) →
  Selected (heap s) (VRef child) name →
  fire listeners (_convertItem listeners conversionApi fuel) name
    [VRef data; consumable; conversionApi]
    (mkState (<[data := ORecord (extend (heap s) additionalData (VRef child))]>
                (heap s)) (log s))
    = (s1, Val tt) →
  v = getProp (heap s1) (VRef data) "output" →
  ChildrenConverted listeners conversionApi fuel consumable additionalData rest s1 vs s2 →
  ChildrenConverted listeners conversionApi fuel consumable additionalData
    (child :: rest) s (v :: vs) s2.
Proof. intros ? ? ? ->. by econstructor. Qed.

(** The three children of the sample fragment produce the first model
    node, [null] and the second model node. *)
Lemma sample_children_converted :
  ChildrenConverted sampleListeners VNull 0 (VRef 5%positive) VUndefined
    [2%positive; 3%positive; 4%positive] sampleState
    [VRef 6%positive; VNull; VRef 7%positive] sampleConverted.
Proof.
  eapply converted_cons_eq;
    [reflexivity|by eapply selected_element|vm_compute; reflexivity
    |vm_compute; reflexivity|].
  eapply converted_cons_eq;
    [reflexivity|by eapply selected_text|vm_compute; reflexivity
    |vm_compute; reflexivity|].
  eapply converted_cons_eq;
    [reflexivity|by eapply selected_element|vm_compute; reflexivity
    |vm_compute; reflexivity|].
  apply converted_nil.
Qed.

(** With additional data whose [context] is a reference, and listeners
    that give every element the [context] of its request record, the
    three children of the sample fragment produce that reference, [null]
    and that reference again. *)
Lemma context_children_converted :
  ChildrenConverted contextListeners VNull 0 (VRef 5%positive) (VRef 8%positive)
    [2%positive; 3%positive; 4%positive] contextState
    [VRef 9%positive; VNull; VRef 9%positive] contextConverted.
Proof.
  eapply converted_cons_eq;
    [reflexivity|by eapply selected_element|vm_compute; reflexivity
    |vm_compute; reflexivity|].
  eapply converted_cons_eq;
    [reflexivity|by eapply selected_text|vm_compute; reflexivity
    |vm_compute; reflexivity|].
  eapply converted_cons_eq;
    [reflexivity|by eapply selected_element|vm_compute; reflexivity
    |vm_compute; reflexivity|].
  apply converted_nil.
Qed.

(** The children of the sample fragment produce [A, null, A], where [A]
    is the reference their request records share, and the result is
    [A, A]; the record of the last child starts with [output] null and
    reads [context] as the additional data does. *)
Lemma convertChildren_in_order_witness :
  getChildren (VRef 1%positive) contextState
    = (contextState, Val [2%positive; 3%positive; 4%positive])
  ∧ ChildrenConverted contextListeners VNull 0 (VRef 5%positive) (VRef 8%positive)
      [2%positive; 3%positive; 4%positive] contextState
      [VRef 9%positive; VNull; VRef 9%positive] contextConverted
  ∧ heap (_convertChildren contextListeners VNull 1 (VRef 1%positive) (VRef 5%positive)
            (VRef 8%positive) contextState).1 !! fresh (dom (heap contextConverted))
    = Some (OArray [VRef 9%positive; VRef 9%positive])
  ∧ ∃ si (rec : gmap string Value),
      ChildrenConverted contextListeners VNull 0 (VRef 5%positive) (VRef 8%positive)
        [2%positive; 3%positive] contextState [VRef 9%positive; VNull] si
      ∧ rec !! "output" = Some VNull
      ∧ rec !! "input" = Some (VRef 4%positive)
      ∧ default VUndefined (rec !! "context") = getProp (heap si) (VRef 8%positive) "context".
Proof.
  split; [reflexivity|]. split; [exact context_children_converted|].
  pose proof (convertChildren_in_order contextListeners VNull 0 (VRef 1%positive)
                (VRef 5%positive) (VRef 8%positive) contextState _ _ _ eq_refl
                context_children_converted)
    as (_ & _ & _ & _ & _ & Hres & _ & Hreq & _).
  split; [exact (Hres (VRef 9%positive) (VRef 9%positive) eq_refl eq_refl eq_refl)|].
  destruct (Hreq 2 4%positive eq_refl)
    as (si & rec & name & s1 & Hconv & _ & Hout & Hin & Hshare & _).
  exists si, rec. split; [exact Hconv|]. split; [exact Hout|]. split; [exact Hin|].
  by apply Hshare.
Defined.

(** In that conversion the three request records are three objects;
    each holds in [context] the reference the additional data holds; the
    elements got it as their [output], and the record of the text node
    between them still has [output] null. *)
Example convertChildren_shares_context :
  ∃ r1 r2 r3,
    log contextConverted
    = [ LFire "element:p" [VRef r1; VRef 5%positive; VNull] [];
        LFire "text" [VRef r2; VRef 5%positive; VNull] [];
        LFire "element:b" [VRef r3; VRef 5%positive; VNull] [] ]
    ∧ r1 ≠ r2 ∧ r2 ≠ r3 ∧ r1 ≠ r3
    ∧ Forall (λ r, getProp (heap contextConverted) (VRef r) "context" = VRef 9%positive)
        [8%positive; r1; r2; r3]
    ∧ (λ r, getProp (heap contextConverted) (VRef r) "output") <$> [r1; r2; r3]
      = [VRef 9%positive; VNull; VRef 9%positive]
    ∧ (λ r, getProp (heap contextConverted) (VRef r) "input") <$> [r1; r2; r3]
      = [VRef 2%positive; VRef 3%positive; VRef 4%positive].
Proof.
  eexists _, _, _. split; [vm_compute; reflexivity|].
  split; [done|]. split; [done|]. split; [done|].
  split; [repeat constructor; vm_compute; reflexivity|].
  split; vm_compute; reflexivity.
Qed.

(** On the sample fragment the falsy result of the text node is dropped. *)
Lemma convertChildren_keeps_truthy_witness :
  getChildren (VRef 1%positive) sampleState
    = (sampleState, Val [2%positive; 3%positive; 4%positive])
  ∧ ChildrenConverted sampleListeners VNull 0 (VRef 5%positive) VUndefined
      [2%positive; 3%positive; 4%positive] sampleState
      [VRef 6%positive; VNull; VRef 7%positive] sampleConverted
  ∧ heap (_convertChildren sampleListeners VNull 1 (VRef 1%positive) (VRef 5%positive)
            VUndefined sampleState).1 !! fresh (dom (heap sampleConverted))
    = Some (OArray (flat_map (contribution (heap sampleConverted))
                      [VRef 6%positive; VNull; VRef 7%positive])).
Proof.
  split; [reflexivity|]. split; [exact sample_children_converted|].
  exact (proj1 (proj2
    (convertChildren_keeps_truthy sampleListeners VNull 0 (VRef 1%positive)
       (VRef 5%positive) VUndefined sampleState _ _ _ eq_refl
       sample_children_converted))).
Defined.

(** The three classes of input of the sample: an element fires
    [element:p], a text node [text], the fragment and a value that is no
    object fire [documentFragment]. *)
Example convertItem_sample_names :
  Forall2 (λ input name,
             ∃ data, log (_convertItem sampleListeners VNull 1 input (VRef 5%positive)
                            VUndefined sampleState).1
                     = [LFire name [VRef data; VRef 5%positive; VNull] []])
    [VRef 2%positive; VRef 3%positive; VRef 1%positive; VNull]
    ["element:p"; "text"; "documentFragment"; "documentFragment"].
Proof. repeat constructor; eexists; vm_compute; reflexivity. Qed.

(** Results [0], [["a", "b"]] and ["c"] of the three children give
    [["a", "b", "c"]]. *)
Example convertChildren_mixed_results :
  ∃ s' arr,
    _convertChildren mixedListeners VNull 1 (VRef 1%positive) (VRef 5%positive)
      VUndefined sampleState = (s', Val (VRef arr))
    ∧ heap s' !! arr = Some (OArray [VStr "a"; VStr "b"; VStr "c"]).
Proof. eexists _, _. split; vm_compute; reflexivity. Qed.

(** The sample fragment converted from the start: the cleanup, the
    tracker, then the notification of the fragment, for which the sample
    dispatcher has no listener. *)
Example convert_sample_trace :
  ∃ s' data,
    convert sampleListeners VNull sampleCreateFrom 1 (VRef 1%positive) VUndefined
      sampleState = (s', Val VNull)
    ∧ log s' = [ LFire "viewCleanup" [VRef 1%positive] [];
                 LCreateConsumable (VRef 1%positive);
                 LFire "documentFragment" [VRef data; VRef 8%positive; VNull] [] ].
Proof. eexists _, _. split; vm_compute; reflexivity. Qed.

(** A listener that follows the protocol consumes the text of the text
    node and produces its output; asked again with the same tracker, it
    produces nothing. *)
Example convertText_consumes_once :
  ∃ s1 s2,
    _convertItem [("text", convertText (VStr "x"))] VNull 1 (VRef 3%positive)
      (VRef 5%positive) VUndefined sampleState = (s1, Val (VStr "x"))
    ∧ heap s1 !! 5%positive = Some (OConsumable {[ (3%positive, "text") := false ]})
    ∧ _convertItem [("text", convertText (VStr "x"))] VNull 1 (VRef 3%positive)
        (VRef 5%positive) VUndefined s1 = (s2, Val VNull).
Proof.
  eexists _, _. split; [vm_compute; reflexivity|].
  split; vm_compute; reflexivity.
Qed.

(** No listener of the sample dispatcher is registered for [text]: the
    text node converts to [null]. *)
Lemma convertItem_returns_final_output_witness :
  Forall (λ l : string * Callback,
            listensTo l.1 (notification sampleHeap (VRef 3%positive)) = false)
         sampleListeners
  ∧ (_convertItem sampleListeners VNull 1 (VRef 3%positive) (VRef 5%positive)
       VUndefined sampleState).2 = Val VNull.
Proof.
  assert (H : Forall (λ l : string * Callback,
            listensTo l.1 (notification sampleHeap (VRef 3%positive)) = false)
         sampleListeners).
  { repeat constructor. }
  split; [exact H|].
  exact (proj1 (proj2 (proj2 (convertItem_returns_final_output sampleListeners VNull 0
           (VRef 3%positive) (VRef 5%positive) VUndefined sampleState)) H)).
Defined.

(** C7, as stated, fails: a listener may assign [output] without
    consuming anything.  Here the text node is converted to ["x"] while
    the tracker is left exactly as it was. *)
Lemma convertItem_output_without_consuming :
  ¬ (∀ listeners conversionApi fuel input (c : loc) additionalData s,
       let res := _convertItem listeners conversionApi (S fuel) input (VRef c)
                    additionalData s in
       heap res.1 !! c = heap s !! c → res.2 = Val VNull).
Proof.
  intros H.
  specialize (H eagerListeners VNull 0 (VRef 3%positive) 5%positive VUndefined
                sampleState).
  cbv zeta in H.
  assert (Hc : heap (_convertItem eagerListeners VNull 1 (VRef 3%positive)
                 (VRef 5%positive) VUndefined sampleState).1 !! 5%positive
               = heap sampleState !! 5%positive) by (vm_compute; reflexivity).
  specialize (H Hc). vm_compute in H. discriminate H.
Qed.

(** ** Errors and edge cases *)

Section Edges.

Variable listeners : list (string * Callback).
Variable conversionApi : Value.
Variable createFrom : Value → Heap → Heap * Outcome Value.

Abbreviation fire := (fire listeners).
Abbreviation _convertItem := (_convertItem listeners conversionApi).
Abbreviation _convertChildren := (_convertChildren listeners conversionApi).
Abbreviation convert := (convert listeners conversionApi createFrom).

Lemma mapConvert_thrown ci consumable additionalData cs1 c cs2 s vs s1 s2 e :
  mapConvert ci consumable additionalData cs1 s = (s1, Val vs) →
  ci (VRef c) consumable additionalData s1 = (s2, Thrown e) →
  mapConvert ci consumable additionalData (cs1 ++ c :: cs2) s = (s2, Thrown e).
Proof.
  revert s vs. induction cs1 as [|c1 cs1 IH]; intros s vs Hm Hc.
  - injection Hm as <- <-. simpl. unfold bind. by rewrite Hc.
  - cbn [mapConvert app] in *. unfold bind at 1 in Hm. unfold bind at 1.
    destruct (ci (VRef c1) consumable additionalData s) as [s' [v|e'|]]; [|done..].
    unfold bind at 1 in Hm. unfold bind at 1.
    destruct (mapConvert ci consumable additionalData cs1 s')
      as [s'' [vs'|e'|]] eqn:Hrest; [|done..].
    injection Hm as <- <-. by rewrite (IH _ _ Hrest Hc).
Qed.

(** X1. When the conversion of a child raises an error, [_convertChildren]
    ends with that error in the state the failing conversion left: the
    children after it are not converted and no array is built.  The
    trace has one notification for each child before the failing one and
    one for the failing child. *)
Theorem convertChildren_propagates n input consumable additionalData
    s cs1 c cs2 vs s1 s2 e :
  getChildren input s = (s, Val (cs1 ++ c :: cs2)) →
  ChildrenConverted listeners conversionApi n consumable additionalData cs1 s vs s1 →
  _convertItem (S n) (VRef c) consumable additionalData s1 = (s2, Thrown e) →
  _convertChildren (S n) input consumable additionalData s = (s2, Thrown e)
  ∧ ∃ entries last,
      log s2 = log s ++ entries ++ [last] ∧ length entries = length cs1.
Proof.
  intros Hch Hconv Hc. split.
  - unfold ViewConversion._convertChildren, convertChildrenWith.
    erewrite bind_val by exact Hch. unfold bind at 1.
    erewrite mapConvert_thrown; [done| |exact Hc].
    by apply mapConvert_converted.
  - destruct (converted_log _ _ _ _ _ _ _ _ _ Hconv) as (entries & Hlog & Hall).
    destruct (convertItem_fires_one_entry listeners conversionApi n (VRef c) consumable
                additionalData s1) as (name & data & nested & Hlast & _).
    rewrite Hc in Hlast. simpl in Hlast.
    exists entries, (LFire name [VRef data; consumable; conversionApi] nested).
    split; [by rewrite Hlast, Hlog, <- app_assoc|].
    by apply Forall2_length in Hall.
Qed.

(** X2. The two edge inputs of [_convertChildren].  On anything that is not
    an element or a document fragment it raises a [TypeError] and leaves
    the state as it is; on a parent without children it returns a new
    empty array and fires nothing. *)
Theorem convertChildren_edges fuel input consumable additionalData s :
  ((∀ l name cs, input = VRef l → heap s !! l ≠ Some (OViewElement name cs)) →
   (∀ l cs, input = VRef l → heap s !! l ≠ Some (OViewFragment cs)) →
   _convertChildren fuel input consumable additionalData s
   = (s, Thrown (VStr "TypeError")))
  ∧ (getChildren input s = (s, Val []) →
     let arr := fresh (dom (heap s)) in
     heap s !! arr = None
     ∧ _convertChildren fuel input consumable additionalData s
       = (mkState (<[arr := OArray []]> (heap s)) (log s), Val (VRef arr))).
Proof.
  split.
  - intros He Hf. unfold ViewConversion._convertChildren, convertChildrenWith.
    unfold bind at 1. unfold getChildren.
    destruct input as [| | | | | |l]; try done.
    destruct (heap s !! l) as [[]|] eqn:Hl; try done.
    + by destruct (He l name children eq_refl).
    + by destruct (Hf l children eq_refl).
  - intros Hch arr. split; [apply not_elem_of_dom, is_fresh|].
    unfold ViewConversion._convertChildren, convertChildrenWith.
    by erewrite bind_val by exact Hch.
Qed.

(** X3. [convert] raises an error exactly when the cleanup listeners, the
    creation of the tracker or the conversion of the item raises it: the
    dispatcher raises none of its own and catches none. *)
Theorem convert_raises_what_it_calls fuel viewItem additionalData s e :
  let cleaned := fire (_convertItem fuel) "viewCleanup" [viewItem] s in
  let tracked := createFrom viewItem (heap cleaned.1) in
  let s2 := mkState tracked.1 (log cleaned.1 ++ [LCreateConsumable viewItem]) in
  (convert fuel viewItem additionalData s).2 = Thrown e ↔
  cleaned.2 = Thrown e
  ∨ (cleaned.2 = Val tt ∧ tracked.2 = Thrown e)
  ∨ (cleaned.2 = Val tt
     ∧ ∃ c, tracked.2 = Val c
            ∧ (_convertItem fuel viewItem c additionalData s2).2 = Thrown e).
Proof.
  cbv zeta. unfold ViewConversion.convert. unfold bind at 1.
  destruct (ViewConversion.fire _ _ _ _ s) as [s1 [[]|e1|]]; simpl.
  - unfold bind at 1. unfold createConsumable.
    destruct (createFrom viewItem (heap s1)) as [h2 [c|e2|]]; simpl.
    + split; [intros H; right; right; eauto|].
      intros [H|[[_ H]|[_ (c' & Hc & H)]]]; [discriminate H..|].
      by injection Hc as <-.
    + split; [intros [= <-]; right; left; done|].
      intros [H|[[_ H]|[_ (c' & H & _)]]]; [discriminate H|exact H|discriminate H].
    + split; [done|].
      intros [H|[[_ H]|[_ (c' & H & _)]]]; discriminate H.
  - split; [intros [= <-]; by left|].
    intros [H|[[H _]|[H _]]]; [by injection H as <-|discriminate H..].
  - split; [done|]. intros [H|[[H _]|[H _]]]; discriminate H.
Qed.

(** X4. When no listener is registered for the cleanup or for the
    notification of the item, [convert] returns [null]: the store is the
    one the creation of the tracker left, with the request record of the
    item added, and the trace shows the three steps with nothing under
    them. *)
Theorem convert_unhandled n viewItem additionalData s h2 c :
  Forall (λ l, listensTo l.1 "viewCleanup" = false) listeners →
  createFrom viewItem (heap s) = (h2, Val c) →
  Forall (λ l, listensTo l.1 (notification h2 viewItem) = false) listeners →
  convert (S n) viewItem additionalData s
  = (mkState (<[fresh (dom h2) := ORecord (extend h2 additionalData viewItem)]> h2)
       (log s ++ [ LFire "viewCleanup" [viewItem] [];
                   LCreateConsumable viewItem;
                   LFire (notification h2 viewItem)
                     [VRef (fresh (dom h2)); c; conversionApi] [] ]),
     Val VNull).
Proof.
  intros Hclean Hcreate Hitem. unfold ViewConversion.convert.
  erewrite bind_val; last first.
  { unfold ViewConversion.fire. by rewrite (callAll_no_listener _ _ _ _ _ Hclean). }
  erewrite bind_val; last first.
  { unfold createConsumable. simpl. by rewrite Hcreate. }
  rewrite convertItem_unfold. cbv zeta. simpl.
  unfold ViewConversion.fire. rewrite (callAll_no_listener _ _ _ _ _ Hitem). simpl.
  rewrite lookup_insert_eq, extend_output, <- !app_assoc. done.
Qed.

End Edges.

(** With a converter for text that fails, the element before the text is
    converted and the element after it is not. *)
Lemma convertChildren_propagates_witness :
  getChildren (VRef 1%positive) sampleState
    = (sampleState, Val ([2%positive] ++ 3%positive :: [4%positive]))
  ∧ ChildrenConverted failingListeners VNull 0 (VRef 5%positive) VUndefined
      [2%positive] sampleState [VRef 6%positive] failingAfterFirst
  ∧ ∃ s2,
      _convertItem failingListeners VNull 1 (VRef 3%positive) (VRef 5%positive)
        VUndefined failingAfterFirst = (s2, Thrown (VStr "no text"))
      ∧ _convertChildren failingListeners VNull 1 (VRef 1%positive) (VRef 5%positive)
          VUndefined sampleState = (s2, Thrown (VStr "no text"))
      ∧ length (log s2) = 2.
Proof.
  split; [reflexivity|].
  assert (Hconv : ChildrenConverted failingListeners VNull 0 (VRef 5%positive)
                    VUndefined [2%positive] sampleState [VRef 6%positive]
                    failingAfterFirst).
  { eapply converted_cons_eq;
      [reflexivity|by eapply selected_element|vm_compute; reflexivity
      |vm_compute; reflexivity|apply converted_nil]. }
  split; [exact Hconv|].
  destruct (_convertItem failingListeners VNull 1 (VRef 3%positive) (VRef 5%positive)
              VUndefined failingAfterFirst) as [s2 r] eqn:Hitem.
  assert (Hr : r = Thrown (VStr "no text")).
  { pose proof Hitem as Hitem'. vm_compute in Hitem'. by injection Hitem' as _ <-. }
  subst r.
  destruct (convertChildren_propagates failingListeners VNull 0 (VRef 1%positive)
              (VRef 5%positive) VUndefined sampleState [2%positive] 3%positive
              [4%positive] _ _ s2 _ eq_refl Hconv Hitem)
    as [Hres (entries & last & Hlog & Hlen)].
  exists s2. split; [reflexivity|]. split; [exact Hres|].
  rewrite Hlog. simpl. rewrite !length_app. simpl. rewrite Hlen. reflexivity.
Defined.

(** A text node has no children to convert; the element [<p>] of the
    sample has none. *)
Lemma convertChildren_edges_witness :
  (_convertChildren sampleListeners VNull 1 (VRef 3%positive) (VRef 5%positive)
     VUndefined sampleState = (sampleState, Thrown (VStr "TypeError")))
  ∧ (getChildren (VRef 2%positive) sampleState = (sampleState, Val [])
     ∧ (_convertChildren sampleListeners VNull 1 (VRef 2%positive) (VRef 5%positive)
          VUndefined sampleState).2 = Val (VRef (fresh (dom sampleHeap)))).
Proof.
  destruct (convertChildren_edges sampleListeners VNull 1 (VRef 3%positive)
              (VRef 5%positive) VUndefined sampleState) as [Hthrow _].
  destruct (convertChildren_edges sampleListeners VNull 1 (VRef 2%positive)
              (VRef 5%positive) VUndefined sampleState) as [_ Hempty].
  split.
  - apply Hthrow.
    + intros l name cs [= <-]. discriminate.
    + intros l cs [= <-]. discriminate.
  - split; [reflexivity|]. destruct (Hempty eq_refl) as [_ ->]. reflexivity.
Defined.

(** The sample dispatcher has no listener for the cleanup nor for
    fragments: the sample fragment converts to [null]. *)
Lemma convert_unhandled_witness :
  Forall (λ l : string * Callback, listensTo l.1 "viewCleanup" = false) sampleListeners
  ∧ sampleCreateFrom (VRef 1%positive) sampleHeap
    = (<[8%positive := OConsumable {[ (1%positive, "name") := true ]}]> sampleHeap,
       Val (VRef 8%positive))
  ∧ (convert sampleListeners VNull sampleCreateFrom 1 (VRef 1%positive) VUndefined
       sampleState).2 = Val VNull.
Proof.
  assert (H1 : Forall (λ l : string * Callback, listensTo l.1 "viewCleanup" = false)
                 sampleListeners) by repeat constructor.
  assert (H2 : sampleCreateFrom (VRef 1%positive) (heap sampleState)
    = (<[8%positive := OConsumable {[ (1%positive, "name") := true ]}]> sampleHeap,
       Val (VRef 8%positive))) by (vm_compute; reflexivity).
  split; [exact H1|]. split; [exact H2|].
  rewrite (convert_unhandled sampleListeners VNull sampleCreateFrom 0 (VRef 1%positive)
             VUndefined sampleState _ _ H1 H2); [reflexivity|].
  repeat constructor.
Defined.

(** ** The trace of nested conversions *)

Section Nested.

Variable listeners : list (string * Callback).
Variable conversionApi : Value.

Abbreviation grows := (ViewConversion.grows conversionApi).
Abbreviation growing := (ViewConversion.growing conversionApi).

Lemma grows_refl s : grows s s.
Proof. exists []. by rewrite app_nil_r. Qed.

Lemma grows_trans s1 s2 s3 : grows s1 s2 → grows s2 s3 → grows s1 s3.
Proof.
  intros (n1 & H1 & F1) (n2 & H2 & F2). exists (n1 ++ n2).
  rewrite H2, H1, <- app_assoc. split; [done|].
  rewrite forallb_app. by rewrite F1, F2.
Qed.

Lemma grows_same_log s s' : log s' = log s → grows s s'.
Proof. intros H. exists []. by rewrite app_nil_r. Qed.

Lemma growing_bind {A B} (m : M A) (k : A → M B) :
  growing m → (∀ a, growing (k a)) → growing (m >>= k).
Proof.
  intros Hm Hk s. unfold bind. specialize (Hm s).
  destruct (m s) as [s1 [a|e|]]; simpl in *; [|done..].
  eapply grows_trans; [exact Hm|apply Hk].
Qed.

Lemma growing_ret {A} (a : A) : growing (ret a).
Proof. intros s. apply grows_refl. Qed.

Lemma growing_alloc o : growing (alloc o).
Proof. intros s. by apply grows_same_log. Qed.

Lemma growing_store l o : growing (store l o).
Proof.
  intros s. apply grows_same_log. unfold store.
  destruct (heap s !! l) as [o0|]; [|done]. by destruct (sameClass o0 o).
Qed.

Lemma growing_getChildren input : growing (getChildren input).
Proof.
  intros s. apply grows_same_log. unfold getChildren.
  destruct input as [| | | | | |l]; try done.
  by destruct (heap s !! l) as [[]|].
Qed.

Lemma growing_mapConvert ci consumable additionalData cs :
  (∀ i c a, growing (ci i c a)) →
  growing (mapConvert ci consumable additionalData cs).
Proof.
  intros Hci. induction cs as [|c cs IH]; [apply growing_ret|].
  cbn [mapConvert]. apply growing_bind; [apply Hci|]. intros v.
  apply growing_bind; [exact IH|]. intros vs. apply growing_ret.
Qed.

Lemma growing_convertChildrenWith ci input consumable additionalData :
  (∀ i c a, growing (ci i c a)) →
  growing (convertChildrenWith ci input consumable additionalData).
Proof.
  intros Hci. unfold convertChildrenWith.
  apply growing_bind; [apply growing_getChildren|]. intros cs.
  apply growing_bind; [by apply growing_mapConvert|]. intros vs.
  apply growing_bind; [intros s; apply grows_refl|]. intros h.
  apply growing_bind; [apply growing_alloc|]. intros r. apply growing_ret.
Qed.

Lemma growing_run {A} ci (p : Prog A) :
  (∀ i c a, growing (ci i c a)) → growing (run ci p).
Proof.
  intros Hci. induction p as [a|e|o k IH|l k IH|l o k IH|i c a k IH|i c a k IH];
    cbn [run].
  - apply growing_ret.
  - intros s. apply grows_refl.
  - apply growing_bind; [apply growing_alloc|]. intros l. apply IH.
  - apply growing_bind; [intros s; apply grows_refl|]. intros h. apply IH.
  - apply growing_bind; [apply growing_store|]. intros _. apply IH.
  - apply growing_bind; [apply Hci|]. intros v. apply IH.
  - apply growing_bind; [by apply growing_convertChildrenWith|]. intros v. apply IH.
Qed.

Lemma growing_callAll ci (ls : list (string * Callback)) name args :
  (∀ i c a, growing (ci i c a)) → growing (callAll ci ls name args).
Proof.
  intros Hci. induction ls as [|[pattern cb] ls IH]; [apply growing_ret|].
  cbn [callAll]. apply growing_bind; [|intros _; exact IH].
  destruct (listensTo pattern name); [by apply growing_run|apply growing_ret].
Qed.

(** A notification of an item, fired with a request record, a tracker
    and the conversion interface, is one entry of the right kind. *)
Lemma growing_fire ci name data consumable :
  (∀ i c a, growing (ci i c a)) → isItemName name = true →
  growing (fire listeners ci name [VRef data; consumable; conversionApi]).
Proof.
  intros Hci Hname s. unfold fire.
  destruct (callAll ci listeners name _ (mkState (heap s) [])) as [s' r] eqn:Hc.
  pose proof (growing_callAll ci listeners name
                [VRef data; consumable; conversionApi] Hci (mkState (heap s) []))
    as (new & Hlog & Hnew).
  rewrite Hc in Hlog. simpl in Hlog. simpl.
  eexists. split; [done|]. simpl. rewrite Hname, Hlog, Hnew.
  by rewrite bool_decide_eq_true_2.
Qed.

Lemma isItemName_notification h input : isItemName (notification h input) = true.
Proof.
  unfold notification.
  destruct (instanceofViewElement h input) as [name|];
    [|by destruct (instanceofViewText h input)].
  unfold isItemName. simpl. by destruct name.
Qed.

Lemma growing_convertItem fuel input consumable additionalData :
  growing (_convertItem listeners conversionApi fuel input consumable additionalData).
Proof.
  revert input consumable additionalData.
  induction fuel as [|n IH]; intros input consumable additionalData s.
  - apply grows_refl.
  - rewrite convertItem_unfold. cbv zeta.
    set (s1 := mkState _ (log s)).
    pose proof (growing_fire (_convertItem listeners conversionApi n)
                  (notification (heap s) input) (fresh (dom (heap s))) consumable
                  IH (isItemName_notification _ _) s1) as Hg.
    destruct (fire _ _ _ _ s1) as [s2 [[]|e|]]; exact Hg.
Qed.

(** X5. Whatever the listeners do through the conversion interface, the
    trace of [_convertItem] and of [_convertChildren] grows, at every
    depth, by notifications of items only: each is named [element:...],
    [text] or [documentFragment] and carries a request record, a tracker
    and the conversion interface of the dispatcher.  No tracker is
    created and no cleanup is fired below [convert]. *)
Theorem nested_conversions_fire_items_only fuel input consumable additionalData s :
  (∃ new, log (_convertItem listeners conversionApi fuel input consumable
                 additionalData s).1 = log s ++ new
          ∧ forallb (itemEntry conversionApi) new = true)
  ∧ (∃ new, log (_convertChildren listeners conversionApi fuel input consumable
                   additionalData s).1 = log s ++ new
            ∧ forallb (itemEntry conversionApi) new = true)
  ∧ (∀ root, itemEntry conversionApi (LCreateConsumable root) = false)
  ∧ (∀ args nested, itemEntry conversionApi (LFire "viewCleanup" args nested) = false).
Proof.
  split; [apply growing_convertItem|].
  split; [|done].
  apply growing_convertChildrenWith. intros i c a. apply growing_convertItem.
Qed.

End Nested.

(** ** Conversion of a whole tree through the conversion interface *)

Lemma vtree_S f h l :
  vtree (S f) h l =
  match h !! l with
  | Some (OViewElement name children) => VTElement name <$> mapM (vtree f h) children
  | Some (OViewFragment children) => VTFragment <$> mapM (vtree f h) children
  | Some (OViewText data) => Some (VTText data)
  | _ => None
  end.
Proof. done. Qed.

Lemma vtree_weaken fuel (h h' : Heap) l t :
  h ⊆ h' → vtree fuel h l = Some t → vtree fuel h' l = Some t.
Proof.
  intros Hsub. revert l t. induction fuel as [|f IH]; intros l t; [done|].
  rewrite !vtree_S. destruct (h !! l) as [o|] eqn:Hl; [|done].
  rewrite (lookup_weaken _ _ _ _ Hl Hsub).
  assert (Hm : ∀ cs ts, mapM (vtree f h) cs = Some ts → mapM (vtree f h') cs = Some ts).
  { intros cs ts. rewrite !mapM_Some. intros H. eapply Forall2_impl; [exact H|]. eauto. }
  destruct o as [| |name cs|d|cs|]; try done.
  - destruct (mapM (vtree f h) cs) as [ts|] eqn:E; [|done].
    by rewrite (Hm _ _ E).
  - destruct (mapM (vtree f h) cs) as [ts|] eqn:E; [|done].
    by rewrite (Hm _ _ E).
Qed.

Lemma walked_weaken (h h' : Heap) t v : h ⊆ h' → walked h t v → walked h' t v.
Proof.
  intros Hsub. destruct t; simpl; [|..|done];
    intros (arr & -> & Harr); exists arr; (split; [done|]);
    by eapply lookup_weaken.
Qed.

(** What a walked tree adds to the conversion of its parent. *)
Lemma walked_contribution h t v : walked h t v → contribution h v = leaves t.
Proof.
  destruct t; simpl.
  - intros (arr & -> & Harr). unfold contribution. simpl. by rewrite Harr.
  - intros (arr & -> & Harr). unfold contribution. simpl. by rewrite Harr.
  - intros ->. unfold contribution. simpl. by destruct (String.eqb data "").
Qed.

Lemma run_setOutput ci v data rest f s :
  heap s !! data = Some (ORecord f) →
  run ci (setOutput v (VRef data :: rest)) s
  = (mkState (<[data := ORecord (<["output" := v]> f)]> (heap s)) (log s), Val tt).
Proof.
  intros Hd. simpl. unfold bind, getHeap. rewrite Hd. simpl.
  unfold bind, store. by rewrite Hd.
Qed.

Lemma listensTo_element name :
  listensTo "element" ("element:" +:+ name) = true
  ∧ listensTo "documentFragment" ("element:" +:+ name) = false
  ∧ listensTo "text" ("element:" +:+ name) = false.
Proof. unfold listensTo. simpl. by destruct name. Qed.

Section Walk.

Variable conversionApi : Value.

Abbreviation ci := (ViewConversion._convertItem treeListeners conversionApi).

(** One level: the children of a parent, given that trees of depth [n]
    are walked. *)
Lemma mapConvert_walks n :
  (∀ s l t c ad, vtree n (heap s) l = Some t →
     ∃ s' v, ci n (VRef l) c ad s = (s', Val v)
             ∧ heap s ⊆ heap s' ∧ walked (heap s') t v) →
  ∀ cs s ts c ad, mapM (vtree n (heap s)) cs = Some ts →
    ∃ s' vs, mapConvert (ci n) c ad cs s = (s', Val vs)
             ∧ heap s ⊆ heap s'
             ∧ flat_map (contribution (heap s')) vs = flat_map leaves ts.
Proof.
  intros IH cs. induction cs as [|l cs IHcs]; intros s ts c ad Hm.
  - injection Hm as <-. by exists s, [].
  - simpl in Hm. destruct (vtree n (heap s) l) as [t|] eqn:Ht; [|done].
    simpl in Hm. destruct (mapM (vtree n (heap s)) cs) as [ts'|] eqn:Hts; [|done].
    injection Hm as <-.
    destruct (IH s l t c ad Ht) as (s1 & v & Hc & Hsub1 & Hw).
    assert (Hts1 : mapM (vtree n (heap s1)) cs = Some ts').
    { apply mapM_Some. apply mapM_Some in Hts.
      eapply Forall2_impl; [exact Hts|]. intros ??. by apply vtree_weaken. }
    destruct (IHcs s1 ts' c ad Hts1) as (s2 & vs & Hcs & Hsub2 & Hflat).
    exists s2, (v :: vs). cbn [mapConvert].
    erewrite bind_val by exact Hc. erewrite bind_val by exact Hcs.
    split; [done|]. split; [by etrans|]. simpl.
    rewrite Hflat. f_equal. apply walked_contribution. by eapply walked_weaken.
Qed.

(** The converter of elements and fragments, run on the request record
    of a parent. *)
Lemma run_descend n :
  (∀ s l t c ad, vtree n (heap s) l = Some t →
     ∃ s' v, ci n (VRef l) c ad s = (s', Val v)
             ∧ heap s ⊆ heap s' ∧ walked (heap s') t v) →
  ∀ s data c rec l cs ts,
    heap s !! data = Some (ORecord rec) →
    rec !! "input" = Some (VRef l) →
    getChildren (VRef l) s = (s, Val cs) →
    mapM (vtree n (heap s)) cs = Some ts →
    ∃ s' arr,
      run (ci n) (descend [VRef data; c; conversionApi]) s = (s', Val tt)
      ∧ arr ≠ data
      ∧ heap s' !! data = Some (ORecord (<["output" := VRef arr]> rec))
      ∧ heap s' !! arr = Some (OArray (flat_map leaves ts))
      ∧ (∀ x o, x ≠ data → heap s !! x = Some o → heap s' !! x = Some o).
Proof.
  intros IH s data c rec l cs ts Hd Hin Hch Hm.
  destruct (mapConvert_walks n IH cs s ts c (VRef data) Hm)
    as (sk & vs & Hmap & Hsub & Hflat).
  set (arr := fresh (dom (heap sk))).
  assert (Harr : heap sk !! arr = None) by apply not_elem_of_dom, is_fresh.
  assert (Hdk : heap sk !! data = Some (ORecord rec)) by by eapply lookup_weaken.
  assert (Hne : arr ≠ data) by (intros E; rewrite E in Harr; congruence).
  eexists _, arr.
  split.
  { cbn [descend run]. unfold bind at 1. unfold getHeap at 1. rewrite Hd.
    cbn [run]. rewrite Hin. simpl default.
    unfold bind at 1. unfold convertChildrenWith.
    erewrite bind_val by exact Hch. erewrite bind_val by exact Hmap.
    unfold bind, getHeap, alloc, ret.
    rewrite foldl_reduceStep, Hflat. simpl app.
    apply run_setOutput. simpl. rewrite lookup_insert_ne by done. exact Hdk. }
  split; [done|]. simpl.
  split; [by rewrite lookup_insert_eq|].
  split; [rewrite lookup_insert_ne by done; by rewrite lookup_insert_eq|].
  intros x o Hx Ho. rewrite lookup_insert_ne by done.
  assert (Hk : heap sk !! x = Some o) by by eapply lookup_weaken.
  rewrite lookup_insert_ne; [done|]. intros E. unfold arr in Harr.
  rewrite E in Harr. congruence.
Qed.

Lemma run_textData ci s data rest rec l d :
  heap s !! data = Some (ORecord rec) →
  rec !! "input" = Some (VRef l) →
  heap s !! l = Some (OViewText d) →
  run ci (textData (VRef data :: rest)) s
  = (mkState (<[data := ORecord (<["output" := VStr d]> rec)]> (heap s)) (log s),
     Val tt).
Proof.
  intros Hd Hin Hl. cbn [textData run]. unfold bind at 1. unfold getHeap at 1.
  rewrite Hd. cbn [run]. rewrite Hin. cbn [run].
  unfold bind at 1. unfold getHeap at 1. rewrite Hl. by apply run_setOutput.
Qed.

(** Which of the three converters is called for a notification. *)
Lemma callAll_element n name args s s' :
  run (ci n) (descend args) s = (s', Val tt) →
  callAll (ci n) treeListeners ("element:" +:+ name) args s = (s', Val tt).
Proof.
  intros Hrun. destruct (listensTo_element name) as (L1 & L2 & L3).
  cbn [treeListeners callAll]. rewrite L1, L2, L3.
  unfold bind at 1. by rewrite Hrun.
Qed.

Lemma callAll_fragment n args s s' :
  run (ci n) (descend args) s = (s', Val tt) →
  callAll (ci n) treeListeners "documentFragment" args s = (s', Val tt).
Proof.
  intros Hrun. cbn [treeListeners callAll].
  change (listensTo "element" "documentFragment") with false.
  change (listensTo "documentFragment" "documentFragment") with true.
  change (listensTo "text" "documentFragment") with false.
  unfold bind at 1 2. unfold ret at 1. by rewrite Hrun.
Qed.

Lemma callAll_text n args s s' :
  run (ci n) (textData args) s = (s', Val tt) →
  callAll (ci n) treeListeners "text" args s = (s', Val tt).
Proof.
  intros Hrun. cbn [treeListeners callAll].
  change (listensTo "element" "text") with false.
  change (listensTo "documentFragment" "text") with false.
  change (listensTo "text" "text") with true.
  unfold bind at 1 2 3. unfold ret at 1 2. by rewrite Hrun.
Qed.

Lemma fire_val ci name args s s' :
  callAll ci treeListeners name args (mkState (heap s) []) = (s', Val tt) →
  ViewConversion.fire treeListeners ci name args s
  = (mkState (heap s') (log s ++ [LFire name args (log s')]), Val tt).
Proof. intros H. unfold ViewConversion.fire. by rewrite H. Qed.

(** Every tree no deeper than the fuel is walked: the conversion
    returns, existing objects are left as they are, and the result is
    the text of a text node or an array of the texts of the leaves. *)
Lemma convertItem_walks n :
  ∀ s l t c ad, vtree n (heap s) l = Some t →
    ∃ s' v, ci n (VRef l) c ad s = (s', Val v)
            ∧ heap s ⊆ heap s' ∧ walked (heap s') t v.
Proof.
  induction n as [|n IH]; intros s l t c ad Ht; [done|].
  rewrite convertItem_unfold. cbv zeta.
  set (data := fresh (dom (heap s))).
  assert (Hfresh : heap s !! data = None) by apply not_elem_of_dom, is_fresh.
  set (rec := extend (heap s) ad (VRef l)).
  set (s1 := mkState (<[data := ORecord rec]> (heap s)) (log s)).
  assert (Hs1 : heap s ⊆ heap s1) by by apply insert_subseteq.
  assert (Hd1 : heap s1 !! data = Some (ORecord rec)) by apply lookup_insert_eq.
  assert (Hin : rec !! "input" = Some (VRef l)) by apply extend_input.
  rewrite vtree_S in Ht.
  destruct (heap s !! l) as [o|] eqn:Hl; [|done].
  assert (Hl1 : heap s1 !! l = Some o) by by eapply lookup_weaken.
  assert (Hsubfinal : ∀ (h' : Heap),
            (∀ x o0, x ≠ data → heap s1 !! x = Some o0 → h' !! x = Some o0) →
            heap s ⊆ h').
  { intros h' Hkeep. apply map_subseteq_spec. intros x o0 Hx.
    apply Hkeep; [intros ->; congruence|by eapply lookup_weaken]. }
  assert (Hdescend : ∀ cs ts,
            getChildren (VRef l) (mkState (heap s1) []) = (mkState (heap s1) [], Val cs) →
            mapM (vtree n (heap s)) cs = Some ts →
            ∃ s2 arr,
              run (ci n) (descend [VRef data; c; conversionApi]) (mkState (heap s1) [])
                = (s2, Val tt)
              ∧ getProp (heap s2) (VRef data) "output" = VRef arr
              ∧ heap s2 !! arr = Some (OArray (flat_map leaves ts))
              ∧ heap s ⊆ heap s2).
  { intros cs ts Hch Hm.
    assert (Hm1 : mapM (vtree n (heap s1)) cs = Some ts).
    { apply mapM_Some. apply mapM_Some in Hm.
      eapply Forall2_impl; [exact Hm|]. intros ??. by apply vtree_weaken. }
    destruct (run_descend n IH (mkState (heap s1) []) data c rec l cs ts Hd1 Hin Hch Hm1)
      as (s2 & arr & Hrun & Hne & Hd2 & Harr & Hkeep).
    exists s2, arr. split; [done|].
    split; [unfold getProp; rewrite Hd2; simpl; by rewrite lookup_insert_eq|].
    split; [done|]. by apply Hsubfinal. }
  destruct o as [| |name cs|d|cs|]; try done.
  - (* an element *)
    destruct (mapM (vtree n (heap s)) cs) as [ts|] eqn:Hm; [|done].
    injection Ht as <-.
    destruct (Hdescend cs ts) as (s2 & arr & Hrun & Hout & Harr & Hsub); [|done|].
    { unfold getChildren. simpl. simpl in Hl1. by rewrite Hl1. }
    assert (Hname : notification (heap s) (VRef l) = "element:" +:+ name)
      by (unfold notification; simpl; by rewrite Hl).
    rewrite Hname.
    rewrite (fire_val _ _ _ s1 s2) by by apply callAll_element.
    eexists _, _. split; [done|]. split; [done|]. simpl.
    exists arr. split; [exact Hout|exact Harr].
  - (* a text node *)
    injection Ht as <-.
    assert (Hname : notification (heap s) (VRef l) = "text")
      by (unfold notification; simpl; by rewrite Hl).
    rewrite Hname.
    rewrite (fire_val _ _ _ s1
               (mkState (<[data := ORecord (<["output" := VStr d]> rec)]> (heap s1)) []));
      [|apply callAll_text;
        exact (run_textData (ci n) (mkState (heap s1) []) data _ rec l d Hd1 Hin Hl1)].
    eexists _, _. split; [done|]. simpl.
    split.
    + rewrite insert_insert_eq. by apply insert_subseteq.
    + rewrite lookup_insert_eq. simpl. by rewrite lookup_insert_eq.
  - (* a fragment *)
    destruct (mapM (vtree n (heap s)) cs) as [ts|] eqn:Hm; [|done].
    injection Ht as <-.
    destruct (Hdescend cs ts) as (s2 & arr & Hrun & Hout & Harr & Hsub); [|done|].
    { unfold getChildren. simpl. simpl in Hl1. by rewrite Hl1. }
    assert (Hname : notification (heap s) (VRef l) = "documentFragment")
      by (unfold notification; simpl; by rewrite Hl).
    rewrite Hname.
    rewrite (fire_val _ _ _ s1 s2) by by apply callAll_fragment.
    eexists _, _. split; [done|]. split; [done|]. simpl.
    exists arr. split; [exact Hout|exact Harr].
Qed.

Variable createFrom : Value → Heap → Heap * Outcome Value.

(** X6. With converters that give, for an element or a fragment, the
    conversion of its children, and for a text node its characters,
    [convert] walks the whole tree through the conversion interface: for
    a tree no deeper than the fuel, and a tracker whose creation leaves
    the existing objects as they are, it returns, and the result holds
    the texts of the leaves in document order, those of the text nodes
    without characters left out.  No object that existed is changed. *)
Theorem convert_walks_tree n l t additionalData s h2 c :
  vtree n (heap s) l = Some t →
  createFrom (VRef l) (heap s) = (h2, Val c) →
  heap s ⊆ h2 →
  ∃ s' v,
    ViewConversion.convert treeListeners conversionApi createFrom n (VRef l)
      additionalData s = (s', Val v)
    ∧ walked (heap s') t v
    ∧ contribution (heap s') v = leaves t
    ∧ heap s ⊆ heap s'.
Proof.
  intros Ht Hcreate Hsub. unfold ViewConversion.convert.
  erewrite bind_val; last first.
  { unfold ViewConversion.fire. rewrite callAll_no_listener; [done|].
    by repeat constructor. }
  erewrite bind_val; last first.
  { unfold createConsumable. simpl. by rewrite Hcreate. }
  set (s2 := mkState h2 _).
  destruct (convertItem_walks n s2 l t c additionalData) as (s' & v & Hc & Hsub' & Hw).
  { by eapply vtree_weaken. }
  exists s', v. split; [done|]. split; [done|].
  split; [by apply walked_contribution|]. by etrans.
Qed.

End Walk.

(** The deeper sample tree converts to [["one", "two"]]: the empty text
    inside [<b>] gives nothing. *)
Lemma convert_walks_tree_witness :
  vtree 4 deepHeap 1%positive
    = Some (VTFragment [ VTElement "p" [VTText "one"; VTElement "b" [VTText ""]];
                         VTText "two" ])
  ∧ sampleCreateFrom (VRef 1%positive) deepHeap
    = (<[fresh (dom deepHeap) := OConsumable {[ (1%positive, "name") := true ]}]> deepHeap,
       Val (VRef (fresh (dom deepHeap))))
  ∧ deepHeap ⊆ <[fresh (dom deepHeap) := OConsumable {[ (1%positive, "name") := true ]}]>
                 deepHeap
  ∧ ∃ s' arr,
      convert treeListeners VNull sampleCreateFrom 4 (VRef 1%positive) VUndefined
        (mkState deepHeap []) = (s', Val (VRef arr))
      ∧ heap s' !! arr = Some (OArray [VStr "one"; VStr "two"]).
Proof.
  assert (Hsub : deepHeap ⊆ <[fresh (dom deepHeap) :=
                     OConsumable {[ (1%positive, "name") := true ]}]> deepHeap)
    by apply insert_subseteq, not_elem_of_dom, is_fresh.
  split; [reflexivity|]. split; [reflexivity|]. split; [exact Hsub|].
  destruct (convert_walks_tree VNull sampleCreateFrom 4 1%positive _ VUndefined
              (mkState deepHeap []) _ _ eq_refl eq_refl Hsub)
    as (s' & v & Hc & (arr & -> & Harr) & _).
  exists s', arr. split; [exact Hc|exact Harr].
Defined.

End ViewConversionFacts.

(* ===================================================================== *)
(** * Properties of the insert operation *)
(* ===================================================================== *)

Module InsertFacts.
Import Insert.

(** ** Normalization of the nodes passed to the constructor *)

Lemma fresh_lookup {A} (h : gmap loc A) : h !! fresh (dom h) = None.
Proof. apply not_elem_of_dom, is_fresh. Qed.

Lemma normalizeList_spec xs h h' ls :
  normalizeList xs h = (h', ls) →
  h ⊆ h'
  ∧ Forall2 (λ x l, match x with
                    | ANode l0 => l = l0
                    | AString s => h !! l = None ∧ h' !! l = Some (Text s)
                    end) xs ls.
Proof.
  revert h h' ls. induction xs as [|[l0|s] xs IH]; intros h h' ls; simpl.
  - intros [= <- <-]. split; [done|constructor].
  - destruct (normalizeList xs h) as [h1 ls1] eqn:E. intros [= <- <-].
    destruct (IH _ _ _ E) as [Hsub Hall]. split; [done|]. by constructor.
  - destruct (normalizeList xs _) as [h1 ls1] eqn:E. intros [= <- <-].
    destruct (IH _ _ _ E) as [Hsub Hall].
    assert (Hins : h ⊆ <[fresh (dom h) := Text s]> h)
      by apply insert_subseteq, fresh_lookup.
    split; [by etrans|]. constructor.
    + split; [apply fresh_lookup|].
      eapply lookup_weaken; [|exact Hsub]. apply lookup_insert_eq.
    + eapply Forall2_impl; [exact Hall|]. intros [l1|s1] l; [done|].
      intros [Hnone Hsome]. split; [|done].
      apply lookup_insert_None in Hnone. tauto.
Qed.

Lemma likeSize_weaken h h2 xs sizes :
  h ⊆ h2 → mapM (likeSize h) xs = Some sizes → mapM (likeSize h2) xs = Some sizes.
Proof.
  intros Hsub. rewrite !mapM_Some. intros H. eapply Forall2_impl; [exact H|].
  intros [l|s] n; [|done]. simpl. intros Hl.
  destruct (h !! l) as [nd|] eqn:E; [|done].
  by rewrite (lookup_weaken _ _ _ _ E Hsub).
Qed.

Lemma maxOffset_normalizeList xs h h' ls sizes :
  normalizeList xs h = (h', ls) →
  mapM (likeSize h) xs = Some sizes →
  maxOffset h' ls = Some (sum_list sizes).
Proof.
  revert h h' ls sizes. induction xs as [|[l0|s] xs IH]; intros h h' ls sizes; simpl.
  - intros [= <- <-] [= <-]. done.
  - destruct (normalizeList xs h) as [h1 ls1] eqn:E. intros [= <- <-] Hm.
    destruct (h !! l0) as [nd|] eqn:El; [|done]. simpl in Hm.
    destruct (mapM (likeSize h) xs) as [sz|] eqn:Em; [|done].
    injection Hm as <-. simpl.
    destruct (normalizeList_spec _ _ _ _ E) as [Hsub _].
    rewrite (lookup_weaken _ _ _ _ El Hsub).
    by rewrite (IH _ _ _ _ E Em).
  - destruct (normalizeList xs _) as [h1 ls1] eqn:E. intros [= <- <-] Hm.
    destruct (mapM (likeSize h) xs) as [sz|] eqn:Em; [|done].
    injection Hm as <-. simpl.
    destruct (normalizeList_spec _ _ _ _ E) as [Hsub _].
    assert (Hl : h1 !! fresh (dom h) = Some (Text s)).
    { eapply lookup_weaken; [|exact Hsub]. apply lookup_insert_eq. }
    rewrite Hl.
    erewrite IH; [done|exact E|].
    eapply likeSize_weaken; [|exact Em]. apply insert_subseteq, fresh_lookup.
Qed.

(** ** The constructor *)

Lemma InsertOperation_new_unfold p ns v σ pos :
  positions σ !! p = Some pos →
  InsertOperation_new p ns v σ =
  Some (mkStore (normalizeNodes ns (nodes σ)).1
                (<[fresh (dom (positions σ)) := pos]> (positions σ)),
        mkInsertOperation (fresh (dom (positions σ)))
                          (normalizeNodes ns (nodes σ)).2 v).
Proof.
  intros Hp. unfold InsertOperation_new, createFromPosition. rewrite Hp. simpl.
  destruct (normalizeNodes ns (nodes σ)) as [h2 ls]. by destruct pos.
Qed.

Lemma normalizeNodes_items ns h : normalizeNodes ns h = normalizeList (items ns) h.
Proof. by destruct ns. Qed.

Lemma normalizeList_nodes ls h : normalizeList (ANode <$> ls) h = (h, ls).
Proof. induction ls as [|l ls IH]; [done|]. rewrite fmap_cons. simpl. by rewrite IH. Qed.

(** C8. The constructor keeps the nodes it is passed as the normalized
    list: the nodes themselves, in the order given, with a new text node
    for each string; node objects that exist are not changed.  The
    position it stores is a new object holding what the caller's position
    holds, so whatever is later written to the caller's position object,
    the stored position reads the same. *)
Theorem constructor_owns_position p ns v σ pos :
  positions σ !! p = Some pos →
  ∃ σ' op,
    InsertOperation_new p ns v σ = Some (σ', op)
    ∧ position op ≠ p
    ∧ positions σ !! position op = None
    ∧ positions σ' !! position op = Some pos
    ∧ positions σ' !! p = Some pos
    ∧ (∀ q, <[p := q]> (positions σ') !! position op = Some pos)
    ∧ baseVersion op = v
    ∧ normalizeNodes ns (nodes σ) = (nodes σ', nodeList op)
    ∧ Forall2 (λ x l, match x with
                      | ANode l0 => l = l0
                      | AString s => nodes σ !! l = None
                                     ∧ nodes σ' !! l = Some (Text s)
                      end) (items ns) (nodeList op)
    ∧ nodes σ ⊆ nodes σ'.
Proof.
  intros Hp. eexists _, _.
  split; [by apply InsertOperation_new_unfold|]. simpl.
  assert (Hne : fresh (dom (positions σ)) ≠ p).
  { intros E. pose proof (fresh_lookup (positions σ)) as Hf. rewrite E in Hf. congruence. }
  split; [done|]. split; [apply fresh_lookup|].
  split; [apply lookup_insert_eq|].
  split; [by rewrite lookup_insert_ne|].
  split; [by intros q; rewrite lookup_insert_ne, lookup_insert_eq|].
  split; [done|].
  destruct (normalizeNodes ns (nodes σ)) as [h2 ls] eqn:E. simpl.
  split; [done|].
  rewrite normalizeNodes_items in E.
  destruct (normalizeList_spec _ _ _ _ E) as [Hsub Hall]. done.
Qed.

(** ** The reversed operation *)

Lemma roundDouble_exact (z : Z) :
  (- 2 ^ 53 ≤ z ≤ 2 ^ 53)%Z → roundDouble z = z.
Proof.
  intros Hz. unfold roundDouble.
  destruct (decide (Z.abs z = 2 ^ 53)%Z) as [E|NE].
  - rewrite E. destruct (Z.abs_spec z) as [[_ E']|[_ E']]; rewrite E' in E.
    + by rewrite E.
    + by replace z with (- 2 ^ 53)%Z by lia.
  - destruct (decide (z = 0%Z)) as [->|Hz0]; [done|].
    assert (Z.log2 (Z.abs z) < 53)%Z by (apply Z.log2_lt_pow2; lia).
    by destruct (Z.leb_spec (Z.log2 (Z.abs z) - 52) 0); [|lia].
Qed.

(** C2. For the operation constructed with position [p], nodes [ns] and
    a base version that is an integer [v] from [-2^53] to below [2^53],
    [getReversed] returns a remove operation at the position of the
    operation, which holds what [p] holds; its width is the sum of the
    offset sizes of the nodes, the number of characters for a text node
    (or a string) and one for an element; its base version is [v + 1].
    In the scenario of position [(root, 0)], nodes
    [[Text "ab"; Element "x"]] and base version 5, it removes 3 at
    [(root, 0)] with base version 6. *)
Theorem getReversed_removes_inserted p ns (v : Z) σ pos sizes :
  positions σ !! p = Some pos →
  mapM (likeSize (nodes σ)) (items ns) = Some sizes →
  (- 2 ^ 53 ≤ v < 2 ^ 53)%Z →
  (∃ σ' op r,
     InsertOperation_new p ns (Some (JNum v)) σ = Some (σ', op)
     ∧ getReversed op σ' = Some r
     ∧ sourcePosition r = position op
     ∧ positions σ' !! sourcePosition r = Some pos
     ∧ howMany r = sum_list sizes
     ∧ removeBaseVersion r = SumNum (v + 1))
  ∧ (∃ σ' op r,
       InsertOperation_new 1%positive (Many [ANode 2%positive; ANode 3%positive])
         (Some (JNum 5)) scenarioStore = Some (σ', op)
       ∧ getReversed op σ' = Some r
       ∧ positions σ' !! sourcePosition r = Some (mkPosition 1%positive [0])
       ∧ howMany r = 3
       ∧ removeBaseVersion r = SumNum 6).
Proof.
  intros Hp Hsizes Hv. split.
  - eexists _, _, _.
    split; [by apply InsertOperation_new_unfold|].
    unfold getReversed. simpl.
    destruct (normalizeNodes ns (nodes σ)) as [h2 ls] eqn:E. simpl.
    rewrite normalizeNodes_items in E.
    rewrite (maxOffset_normalizeList _ _ _ _ _ E Hsizes).
    split; [done|]. simpl. split; [done|]. split; [apply lookup_insert_eq|].
    split; [done|]. f_equal. apply roundDouble_exact. lia.
  - eexists _, _, _.
    split; [by apply (InsertOperation_new_unfold _ _ _ _ (mkPosition 1%positive [0]))|].
    split; [reflexivity|]. simpl. split; [apply lookup_insert_eq|done].
Qed.

(** The scenario of the specification, through the general statement. *)
Lemma getReversed_removes_inserted_witness :
  positions scenarioStore !! 1%positive = Some (mkPosition 1%positive [0])
  ∧ mapM (likeSize (nodes scenarioStore))
         (items (Many [ANode 2%positive; ANode 3%positive])) = Some [2; 1]
  ∧ (- 2 ^ 53 ≤ 5 < 2 ^ 53)%Z
  ∧ ∃ σ' op r,
      InsertOperation_new 1%positive (Many [ANode 2%positive; ANode 3%positive])
        (Some (JNum 5)) scenarioStore = Some (σ', op)
      ∧ getReversed op σ' = Some r
      ∧ sourcePosition r = position op
      ∧ positions σ' !! sourcePosition r = Some (mkPosition 1%positive [0])
      ∧ howMany r = sum_list [2; 1]
      ∧ removeBaseVersion r = SumNum (5 + 1).
Proof.
  split; [reflexivity|]. split; [reflexivity|]. split; [lia|].
  exact (proj1 (getReversed_removes_inserted 1%positive
                  (Many [ANode 2%positive; ANode 3%positive]) 5 scenarioStore
                  (mkPosition 1%positive [0]) [2; 1] eq_refl eq_refl
                  ltac:(lia))).
Defined.

(** At base version [2^53] the sum [v + 1] is not a double and is
    rounded to [2^53]: the reversed operation has the base version of
    the operation itself, not the next one. *)
Lemma getReversed_base_version_rounded :
  ∃ σ' op r,
    InsertOperation_new 1%positive (Many [ANode 2%positive; ANode 3%positive])
      (Some (JNum (2 ^ 53))) scenarioStore = Some (σ', op)
    ∧ getReversed op σ' = Some r
    ∧ baseVersion op = Some (JNum (2 ^ 53))
    ∧ removeBaseVersion r = SumNum (2 ^ 53)
    ∧ removeBaseVersion r ≠ SumNum (2 ^ 53 + 1).
Proof.
  eexists _, _, _.
  split; [by apply (InsertOperation_new_unfold _ _ _ _ (mkPosition 1%positive [0]))|].
  split; [reflexivity|]. split; [done|]. split; [done|]. simpl. discriminate.
Qed.

(** The position [(root, 0)] of the scenario is copied. *)
Lemma constructor_owns_position_witness :
  positions scenarioStore !! 1%positive = Some (mkPosition 1%positive [0])
  ∧ ∃ σ' op,
      InsertOperation_new 1%positive (Many [AString "ab"; ANode 3%positive])
        (Some (JNum 5)) scenarioStore = Some (σ', op)
      ∧ position op ≠ 1%positive
      ∧ (∀ q, <[1%positive := q]> (positions σ') !! position op
              = Some (mkPosition 1%positive [0])).
Proof.
  split; [reflexivity|].
  destruct (constructor_owns_position 1%positive (Many [AString "ab"; ANode 3%positive])
              (Some (JNum 5)) scenarioStore (mkPosition 1%positive [0]) eq_refl)
    as (σ' & op & Hnew & Hne & _ & _ & _ & Hmut & _).
  exists σ', op. auto.
Defined.

(** ** Trees of the store *)

Lemma mapM_cons_Some {A B} (f : A → option B) x xs ys :
  mapM f (x :: xs) = Some ys ↔
  ∃ y ys', f x = Some y ∧ mapM f xs = Some ys' ∧ ys = y :: ys'.
Proof.
  simpl. split.
  - destruct (f x) as [y|]; [|done]. simpl.
    destruct (mapM f xs) as [ys'|]; [|done]. simpl. intros [= <-]. eauto.
  - intros (y & ys' & -> & -> & ->). done.
Qed.

Lemma view_S f h l :
  view (S f) h l =
  match h !! l with
  | Some (Text data) => Some (LText l data)
  | Some (Element name children) => LElement l name <$> mapM (view f h) children
  | None => None
  end.
Proof. done. Qed.

(** A tree is read the same in a store that agrees on its node objects. *)
Lemma view_agree fuel h1 h2 l lt :
  view fuel h1 l = Some lt →
  (∀ x, x ∈ locs lt → h2 !! x = h1 !! x) →
  view fuel h2 l = Some lt.
Proof.
  revert l lt. induction fuel as [|f IH]; intros l lt; [done|].
  rewrite !view_S. intros Hv Hag.
  destruct (h1 !! l) as [[name cs|data]|] eqn:Hl; [| |done].
  - destruct (mapM (view f h1) cs) as [lts|] eqn:Hm; [|done].
    injection Hv as <-. simpl in Hag.
    rewrite (Hag l), Hl by set_solver.
    assert (Hm2 : mapM (view f h2) cs = Some lts); [|by rewrite Hm2].
    assert (Hag' : ∀ x, x ∈ mjoin (locs <$> lts) → h2 !! x = h1 !! x)
      by (intros x Hx; apply Hag; set_solver).
    clear Hag Hl. revert lts Hm Hag'.
    induction cs as [|c cs IHcs]; intros lts Hm Hag; [done|].
    apply mapM_cons_Some in Hm as (y & ys & Hy & Hys & ->).
    apply mapM_cons_Some. exists y, ys. simpl in Hag.
    split; [apply IH; [done|intros x Hx; apply Hag; set_solver]|].
    split; [apply IHcs; [done|intros x Hx; apply Hag; set_solver]|done].
  - injection Hv as <-. simpl in Hag. by rewrite (Hag l), Hl by set_solver.
Qed.

(** The node objects of a tree of the store exist. *)
Lemma view_locs_dom fuel h l lt x :
  view fuel h l = Some lt → x ∈ locs lt → is_Some (h !! x).
Proof.
  revert l lt. induction fuel as [|f IH]; intros l lt; [done|].
  rewrite view_S. intros Hv Hx.
  destruct (h !! l) as [[name cs|data]|] eqn:Hl; [| |done].
  - destruct (mapM (view f h) cs) as [lts|] eqn:Hm; [|done].
    injection Hv as <-. simpl in Hx.
    apply elem_of_cons in Hx as [->|Hx]; [by rewrite Hl|].
    clear Hl. revert lts Hm Hx.
    induction cs as [|c cs IHcs]; intros lts Hm Hx.
    + injection Hm as <-. simpl in Hx. set_solver.
    + apply mapM_cons_Some in Hm as (y & ys & Hy & Hys & ->).
      simpl in Hx. apply elem_of_app in Hx as [Hx|Hx]; eauto.
  - injection Hv as <-. simpl in Hx. apply list_elem_of_singleton in Hx as ->.
    by rewrite Hl.
Qed.

Lemma view_weaken fuel h h' l lt :
  h ⊆ h' → view fuel h l = Some lt → view fuel h' l = Some lt.
Proof.
  intros Hsub Hv. eapply view_agree; [done|]. intros x Hx.
  destruct (view_locs_dom _ _ _ _ _ Hv Hx) as [n Hn].
  rewrite Hn. by eapply lookup_weaken.
Qed.

Lemma mapM_view_weaken fuel h h' ls lts :
  h ⊆ h' → mapM (view fuel h) ls = Some lts → mapM (view fuel h') ls = Some lts.
Proof.
  intros Hsub. rewrite !mapM_Some. intros H. eapply Forall2_impl; [exact H|].
  intros l lt. by apply view_weaken.
Qed.

(** Whatever is reached from the root of a tree is a node of the tree. *)
Lemma reaches_view h l x :
  reaches h l x → ∀ fuel lt, view fuel h l = Some lt → x ∈ locs lt.
Proof.
  induction 1 as [l|l name cs c x Hl Hc _ IH]; intros fuel lt Hv.
  - destruct fuel as [|f]; [done|]. rewrite view_S in Hv.
    destruct (h !! l) as [[name cs|data]|]; [| |done].
    + destruct (mapM _ cs); [|done]. injection Hv as <-. simpl. set_solver.
    + injection Hv as <-. simpl. set_solver.
  - destruct fuel as [|f]; [done|]. rewrite view_S, Hl in Hv.
    destruct (mapM (view f h) cs) as [lts|] eqn:Hm; [|done].
    injection Hv as <-. simpl. apply elem_of_cons. right.
    apply mapM_Some in Hm.
    apply list_elem_of_lookup in Hc as [i Hi].
    destruct (Forall2_lookup_l _ _ _ _ _ Hm Hi) as (ltc & Hltc & Hvc).
    apply list_elem_of_join. exists (locs ltc). split; [by eapply IH|].
    apply list_elem_of_fmap. exists ltc. split; [done|].
    by eapply list_elem_of_lookup_2.
Qed.

(** ** Deep clones *)

Lemma fresh_not_sub (h h1 : gmap loc Node) x :
  h ⊆ h1 → h1 !! x = None → h !! x = None.
Proof.
  intros Hsub Hnone. destruct (h !! x) as [n|] eqn:E; [|done].
  by rewrite (lookup_weaken _ _ _ _ E Hsub) in Hnone.
Qed.

(** Cloning a list of trees, given that single trees of depth [f] are
    cloned well. *)
Lemma cloneAll_spec_gen f :
  (∀ h l lt, view f h l = Some lt →
     ∃ h' l' lt', cloneNode f l h = Some (h', l') ∧ h ⊆ h'
       ∧ view f h' l' = Some lt' ∧ shape lt' = shape lt
       ∧ (∀ x, x ∈ locs lt' → h !! x = None)) →
  ∀ ls h lts, mapM (view f h) ls = Some lts →
    ∃ h' ls' lts', cloneAll (cloneNode f) ls h = Some (h', ls') ∧ h ⊆ h'
      ∧ mapM (view f h') ls' = Some lts' ∧ shape <$> lts' = shape <$> lts
      ∧ (∀ x, x ∈ mjoin (locs <$> lts') → h !! x = None).
Proof.
  intros IH ls. induction ls as [|l ls IHls]; intros h lts Hm.
  - injection Hm as <-. exists h, [], []. simpl. split; [done|]. split; [done|].
    split; [done|]. split; [done|]. set_solver.
  - apply mapM_cons_Some in Hm as (lt & lts0 & Hlt & Hlts & ->).
    destruct (IH _ _ _ Hlt) as (h1 & l' & lt' & Hc & Hsub1 & Hv1 & Hs1 & Hf1).
    destruct (IHls h1 lts0) as (h2 & ls' & lts' & Hcs & Hsub2 & Hv2 & Hs2 & Hf2).
    { by eapply mapM_view_weaken. }
    exists h2, (l' :: ls'), (lt' :: lts'). simpl. rewrite Hc, Hcs.
    split; [done|]. split; [by etrans|].
    split. { rewrite (view_weaken _ _ _ _ _ Hsub2 Hv1). simpl. by rewrite Hv2. }
    split; [rewrite Hs1; f_equal; exact Hs2|].
    intros x Hx. apply elem_of_app in Hx as [Hx|Hx]; [by apply Hf1|].
    eapply fresh_not_sub; [exact Hsub1|by apply Hf2].
Qed.

(** A tree of depth at most [fuel] is cloned: the store only grows, the
    clone has the same shape, and none of its node objects existed. *)
Lemma cloneNode_spec fuel h l lt :
  view fuel h l = Some lt →
  ∃ h' l' lt', cloneNode fuel l h = Some (h', l') ∧ h ⊆ h'
    ∧ view fuel h' l' = Some lt' ∧ shape lt' = shape lt
    ∧ (∀ x, x ∈ locs lt' → h !! x = None).
Proof.
  revert h l lt. induction fuel as [|f IH]; intros h l lt; [done|].
  rewrite view_S. intros Hv. cbn [cloneNode].
  destruct (h !! l) as [[name cs|data]|] eqn:Hl; [| |done].
  - destruct (mapM (view f h) cs) as [lts|] eqn:Hm; [|done].
    injection Hv as <-.
    destruct (cloneAll_spec_gen f IH cs h lts Hm)
      as (h1 & cs' & lts' & Hc & Hsub & Hv' & Hs & Hf).
    rewrite Hc. set (l' := fresh (dom h1)).
    assert (Hl' : h1 !! l' = None) by apply fresh_lookup.
    assert (Hsub' : h1 ⊆ <[l' := Element name cs']> h1) by by apply insert_subseteq.
    exists (<[l' := Element name cs']> h1), l', (LElement l' name lts').
    split; [done|]. split; [by etrans|].
    split. { rewrite view_S, lookup_insert_eq.
             by rewrite (mapM_view_weaken _ _ _ _ _ Hsub' Hv'). }
    split; [simpl; by rewrite Hs|].
    intros x Hx. simpl in Hx. apply elem_of_cons in Hx as [->|Hx]; [|by apply Hf].
    by eapply fresh_not_sub.
  - injection Hv as <-. set (l' := fresh (dom h)).
    assert (Hl' : h !! l' = None) by apply fresh_lookup.
    exists (<[l' := Text data]> h), l', (LText l' data).
    split; [done|]. split; [by apply insert_subseteq|].
    split; [by rewrite view_S, lookup_insert_eq|]. split; [done|].
    intros x Hx. simpl in Hx. by apply list_elem_of_singleton in Hx as ->.
Qed.

Lemma cloneAll_spec fuel ls h lts :
  mapM (view fuel h) ls = Some lts →
  ∃ h' ls' lts', cloneAll (cloneNode fuel) ls h = Some (h', ls') ∧ h ⊆ h'
    ∧ mapM (view fuel h') ls' = Some lts' ∧ shape <$> lts' = shape <$> lts
    ∧ (∀ x, x ∈ mjoin (locs <$> lts') → h !! x = None).
Proof. apply cloneAll_spec_gen. intros. by apply cloneNode_spec. Qed.

Lemma mapM_view_agree fuel h1 h2 ls lts :
  mapM (view fuel h1) ls = Some lts →
  (∀ x, x ∈ mjoin (locs <$> lts) → h2 !! x = h1 !! x) →
  mapM (view fuel h2) ls = Some lts.
Proof.
  revert lts. induction ls as [|l ls IH]; intros lts Hm Hag; [done|].
  apply mapM_cons_Some in Hm as (lt & lts0 & Hlt & Hlts & ->).
  apply mapM_cons_Some. exists lt, lts0. rewrite fmap_cons in Hag. simpl in Hag.
  split; [eapply view_agree; [done|intros x Hx; apply Hag; set_solver]|].
  split; [apply IH; [done|intros x Hx; apply Hag; set_solver]|done].
Qed.

Lemma mapM_view_elem fuel h ls lts l :
  mapM (view fuel h) ls = Some lts → l ∈ ls →
  ∃ lt, view fuel h l = Some lt ∧ lt ∈ lts.
Proof.
  intros Hm Hl. apply mapM_Some in Hm.
  apply list_elem_of_lookup in Hl as [i Hi].
  destruct (Forall2_lookup_l _ _ _ _ _ Hm Hi) as (lt & Hlt & Hv).
  exists lt. split; [done|]. by eapply list_elem_of_lookup_2.
Qed.

Lemma locs_in_join (lt : LTree) lts x :
  lt ∈ lts → x ∈ locs lt → x ∈ mjoin (locs <$> lts).
Proof.
  intros Hlt Hx. apply list_elem_of_join. exists (locs lt). split; [done|].
  apply list_elem_of_fmap. eauto.
Qed.

Lemma mapM_view_locs_dom fuel h ls lts x :
  mapM (view fuel h) ls = Some lts → x ∈ mjoin (locs <$> lts) → is_Some (h !! x).
Proof.
  intros Hm Hx. apply list_elem_of_join in Hx as (l0 & Hx & Hl0).
  apply list_elem_of_fmap in Hl0 as (lt & -> & Hlt).
  apply mapM_Some in Hm.
  apply list_elem_of_lookup in Hlt as [i Hi].
  destruct (Forall2_lookup_r _ _ _ _ _ Hm Hi) as (l & _ & Hv).
  by eapply view_locs_dom.
Qed.

(** Whatever is reached from one of the trees [ls] is a node of one of
    them. *)
Lemma reaches_mapM_view fuel h ls lts l x :
  mapM (view fuel h) ls = Some lts → l ∈ ls → reaches h l x →
  x ∈ mjoin (locs <$> lts).
Proof.
  intros Hm Hl Hr. destruct (mapM_view_elem _ _ _ _ _ Hm Hl) as (lt & Hv & Hlt).
  eapply locs_in_join; [done|]. by eapply reaches_view.
Qed.

(** ** Execution *)

Section Execute.

Variable writer_insert : loc → list loc → Store → option (Store * Range).
Hypothesis writer_is_local : writer_local writer_insert.

(** The insertion leaves alone every node object that is new to a store
    in which the inserted trees and the tree of the position are found. *)
Lemma writer_insert_frame fuel pos ls h h1 ps lts σ2 range x :
  writer_insert pos ls (mkStore h1 ps) = Some (σ2, range) →
  h ⊆ h1 →
  mapM (view fuel h) ls = Some lts →
  (∀ p, ps !! pos = Some p → ∃ n lt, view n h (root p) = Some lt) →
  h !! x = None →
  nodes σ2 !! x = h1 !! x.
Proof.
  intros Hw Hsub Hm Hroot Hx.
  apply (writer_is_local _ _ _ _ _ x Hw); simpl.
  - intros l Hl Hr.
    assert (Hin : x ∈ mjoin (locs <$> lts)).
    { eapply reaches_mapM_view; [|done..]. by eapply mapM_view_weaken. }
    destruct (mapM_view_locs_dom _ _ _ _ _ Hm Hin) as [n Hn]. congruence.
  - intros p Hp Hr. destruct (Hroot p Hp) as (n & lt & Hv).
    assert (Hin : x ∈ locs lt).
    { eapply reaches_view; [done|]. by eapply view_weaken. }
    destruct (view_locs_dom _ _ _ _ _ Hv Hin) as [nd Hn]. congruence.
Qed.

(** [_execute], step by step. *)
Lemma execute_spec fuel op σ lts :
  mapM (view fuel (nodes σ)) (nodeList op) = Some lts →
  (∀ p, positions σ !! position op = Some p →
        ∃ n lt, view n (nodes σ) (root p) = Some lt) →
  ∃ h1 clones lts',
    cloneAll (cloneNode fuel) (nodeList op) (nodes σ) = Some (h1, clones)
    ∧ nodes σ ⊆ h1
    ∧ mapM (view fuel h1) clones = Some lts'
    ∧ shape <$> lts' = shape <$> lts
    ∧ (∀ x, x ∈ mjoin (locs <$> lts') → nodes σ !! x = None)
    ∧ mapM (view fuel h1) (nodeList op) = Some lts
    ∧ _execute writer_insert fuel op σ =
        match writer_insert (position op) (nodeList op) (mkStore h1 (positions σ)) with
        | Some (σ2, range) =>
            Some (mkInsertOperation (position op) clones (baseVersion op), σ2, range)
        | None => None
        end
    ∧ (∀ σ2 range,
         writer_insert (position op) (nodeList op) (mkStore h1 (positions σ))
           = Some (σ2, range) →
         mapM (view fuel (nodes σ2)) clones = Some lts').
Proof.
  intros Hm Hroot.
  destruct (cloneAll_spec _ _ _ _ Hm) as (h1 & clones & lts' & Hc & Hsub & Hv & Hs & Hf).
  exists h1, clones, lts'.
  split; [done|]. split; [done|]. split; [done|]. split; [done|]. split; [done|].
  split; [by eapply mapM_view_weaken|].
  split; [unfold _execute; by rewrite Hc|].
  intros σ2 range Hw. eapply mapM_view_agree; [exact Hv|].
  intros x Hx. eapply writer_insert_frame; eauto.
Qed.


End Execute.

Lemma lookup_foldr_alter_notin (f : Node → Node) (h : gmap loc Node) ls x :
  x ∉ ls → foldr (alter f) h ls !! x = h !! x.
Proof.
  induction ls as [|l ls IH]; [done|]. intros Hx. simpl.
  rewrite lookup_alter_ne by set_solver. apply IH. set_solver.
Qed.

(** The writer of the examples changes the root and the nodes it is
    given, nothing else. *)
Lemma sampleInsert_local : writer_local sampleInsert.
Proof.
  intros pos ls σ σ' range x Hw Hls Hroot. unfold sampleInsert in Hw.
  destruct (positions σ !! pos) as [p|] eqn:Hp; [|done].
  destruct (nodes σ !! root p) as [[name cs|]|] eqn:Hr; [|done..].
  injection Hw as <- <-. simpl.
  assert (Hx : x ∉ ls) by (intros Hin; by apply (Hls x Hin), reaches_refl).
  assert (Hxr : root p ≠ x) by (intros <-; by apply (Hroot p eq_refl), reaches_refl).
  rewrite lookup_foldr_alter_notin by done. by rewrite lookup_insert_ne.
Qed.


(** ** Cloning the operation *)

Section Clone.

Variable writer_insert : loc → list loc → Store → option (Store * Range).
Hypothesis writer_is_local : writer_local writer_insert.


End Clone.


(** ** Deserialization *)

Lemma pathFromJSON_of_path (pth : list nat) :
  pathFromJSON ((λ i, JNum (Z.of_nat i)) <$> pth) = Some pth.
Proof.
  induction pth as [|i pth IH]; [done|]. rewrite fmap_cons. simpl.
  destruct (0 <=? Z.of_nat i)%Z eqn:E; [|apply Z.leb_gt in E; lia].
  by rewrite IH, Nat2Z.id.
Qed.

Lemma decodeChildren_spec_gen f :
  (∀ h l lt, view f h l = Some lt → named lt = true →
     ∃ j, nodeToJSON f h l = Some j ∧ j ≠ JNull
       ∧ ∀ h0, ∃ h0' l' lt', decodeOne f j h0 = Some (h0', l') ∧ h0 ⊆ h0'
           ∧ view f h0' l' = Some lt' ∧ shape lt' = shape lt) →
  ∀ ls h lts, mapM (view f h) ls = Some lts → forallb named lts = true →
    ∃ js, mapM (nodeToJSON f h) ls = Some js
      ∧ ∀ h0, ∃ h0' ls' lts',
          decodeChildren (elementFromJSON f) textFromJSON js h0 = Some (h0', ls')
          ∧ h0 ⊆ h0' ∧ mapM (view f h0') ls' = Some lts'
          ∧ shape <$> lts' = shape <$> lts.
Proof.
  intros IH ls. induction ls as [|l ls IHls]; intros h lts Hm Hnamed.
  - injection Hm as <-. exists []. split; [done|]. intros h0. by exists h0, [], [].
  - apply mapM_cons_Some in Hm as (lt & lts0 & Hlt & Hlts & ->).
    simpl in Hnamed. apply andb_true_iff in Hnamed as [Hn Hns].
    destruct (IH _ _ _ Hlt Hn) as (j & Hj & Hnn & Hdec).
    destruct (IHls _ _ Hlts Hns) as (js & Hjs & Hdecs).
    exists (j :: js). split; [simpl; by rewrite Hj, Hjs|].
    intros h0.
    destruct (Hdec h0) as (h1 & l' & lt' & Hd & Hsub1 & Hv1 & Hs1).
    destruct (Hdecs h1) as (h2 & ls' & lts' & Hds & Hsub2 & Hv2 & Hs2).
    exists h2, (l' :: ls'), (lt' :: lts').
    split.
    { cbn [decodeChildren]. unfold decodeOne in Hd.
      destruct j; try done; by rewrite Hd, Hds. }
    split; [by etrans|].
    split. { simpl. rewrite (view_weaken _ _ _ _ _ Hsub2 Hv1). simpl. by rewrite Hv2. }
    rewrite !fmap_cons. by rewrite Hs1, Hs2.
Qed.

(** A tree whose elements have non-empty names is written to a record
    from which a tree of the same shape is read. *)
Lemma decodeOne_nodeToJSON fuel h l lt :
  view fuel h l = Some lt → named lt = true →
  ∃ j, nodeToJSON fuel h l = Some j ∧ j ≠ JNull
    ∧ ∀ h0, ∃ h0' l' lt', decodeOne fuel j h0 = Some (h0', l') ∧ h0 ⊆ h0'
        ∧ view fuel h0' l' = Some lt' ∧ shape lt' = shape lt.
Proof.
  revert h l lt. induction fuel as [|f IH]; intros h l lt; [done|].
  rewrite view_S. intros Hv Hnamed. cbn [nodeToJSON].
  destruct (h !! l) as [[name cs|data]|] eqn:Hl; [| |done].
  - destruct (mapM (view f h) cs) as [lts|] eqn:Hm; [|done].
    injection Hv as <-. simpl in Hnamed.
    apply andb_true_iff in Hnamed as [Hname Hns].
    destruct (decodeChildren_spec_gen f IH cs h lts Hm Hns) as (js & Hjs & Hdec).
    rewrite Hjs. eexists. split; [done|]. split; [done|].
    intros h0. destruct (Hdec h0) as (h1 & cs' & lts' & Hd & Hsub & Hv' & Hs).
    set (l' := fresh (dom h1)).
    assert (Hl' : h1 !! l' = None) by apply fresh_lookup.
    assert (Hsub' : h1 ⊆ <[l' := Element name cs']> h1) by by apply insert_subseteq.
    exists (<[l' := Element name cs']> h1), l', (LElement l' name lts').
    split. { unfold decodeOne. simpl. rewrite Hname. simpl. by rewrite Hd. }
    split; [by etrans|].
    split. { rewrite view_S, lookup_insert_eq.
             by rewrite (mapM_view_weaken _ _ _ _ _ Hsub' Hv'). }
    simpl. by rewrite Hs.
  - injection Hv as <-. eexists. split; [done|]. split; [done|].
    intros h0. set (l' := fresh (dom h0)).
    assert (Hl' : h0 !! l' = None) by apply fresh_lookup.
    exists (<[l' := Text data]> h0), l', (LText l' data).
    split; [done|]. split; [by apply insert_subseteq|].
    split; [by rewrite view_S, lookup_insert_eq|done].
Qed.

(** X11. The round trip where it holds: an operation whose elements all have
    non-empty names, at a position whose root the document knows by name,
    is persisted and read back as an operation with the same base
    version, a position holding the same root and path, and nodes of the
    same shapes, in order. *)
Lemma fromJSON_toJSON fuel document op σ lts pos name :
  mapM (view fuel (nodes σ)) (nodeList op) = Some lts →
  forallb named lts = true →
  positions σ !! position op = Some pos →
  rootName document (root pos) = Some name →
  getRoot document name = Some (root pos) →
  ∃ j σ' op' lts',
    toJSON fuel document op σ = Some j
    ∧ fromJSON (elementFromJSON fuel) textFromJSON positionFromJSON j document σ
      = Some (σ', op')
    ∧ baseVersion op' = baseVersion op
    ∧ positions σ' !! position op' = Some pos
    ∧ mapM (view fuel (nodes σ')) (nodeList op') = Some lts'
    ∧ shape <$> lts' = shape <$> lts
    ∧ nodes σ ⊆ nodes σ'.
Proof.
  intros Hm Hnamed Hp Hname Hroot.
  destruct (decodeChildren_spec_gen fuel (decodeOne_nodeToJSON fuel) _ _ _ Hm Hnamed)
    as (js & Hjs & Hdec).
  destruct (Hdec (nodes σ)) as (h1 & ls' & lts' & Hd & Hsub & Hv & Hs).
  unfold toJSON. rewrite Hp, Hname, Hjs.
  destruct op as [p ls [v|]]; simpl in *;
    (eexists _, _, _, lts'; split; [done|]);
    unfold fromJSON; simpl; rewrite Hd; simpl;
    rewrite Hroot, pathFromJSON_of_path; simpl;
    (erewrite InsertOperation_new_unfold; [|simpl; apply lookup_insert_eq]);
    simpl; rewrite normalizeList_nodes; simpl;
    (split; [done|]); (split; [done|]);
    (split; [cbn [positions position]; rewrite lookup_insert_eq; by destruct pos|]);
    done.
Qed.

(** The operation of the scenario, a text node and an element named [x],
    goes through the round trip. *)
Lemma fromJSON_toJSON_witness :
  mapM (view 2 (nodes scenarioOpStore)) (nodeList scenarioOp)
    = Some [LText 2%positive "ab"; LElement 3%positive "x" []]
  ∧ forallb named [LText 2%positive "ab"; LElement 3%positive "x" []] = true
  ∧ positions scenarioOpStore !! position scenarioOp = Some (mkPosition 1%positive [0])
  ∧ rootName scenarioDocument 1%positive = Some "main"
  ∧ getRoot scenarioDocument "main" = Some 1%positive
  ∧ ∃ j σ' op',
      toJSON 2 scenarioDocument scenarioOp scenarioOpStore = Some j
      ∧ fromJSON (elementFromJSON 2) textFromJSON positionFromJSON j scenarioDocument
          scenarioOpStore = Some (σ', op')
      ∧ baseVersion op' = Some (JNum 5)
      ∧ positions σ' !! position op' = Some (mkPosition 1%positive [0])
      ∧ (λ lts, shape <$> lts) <$> mapM (view 2 (nodes σ')) (nodeList op')
        = Some [TText "ab"; TElement "x" []].
Proof.
  split; [reflexivity|]. split; [reflexivity|]. split; [reflexivity|].
  split; [reflexivity|]. split; [reflexivity|].
  destruct (fromJSON_toJSON 2 scenarioDocument scenarioOp scenarioOpStore
              [LText 2%positive "ab"; LElement 3%positive "x" []]
              (mkPosition 1%positive [0]) "main" eq_refl eq_refl eq_refl eq_refl eq_refl)
    as (j & σ' & op' & lts' & Hto & Hfrom & Hv & Hp & Hm & Hs & _).
  exists j, σ', op'. rewrite Hm. simpl. by rewrite Hs.
Defined.

(** The record of the element with the empty name is what [toJSON]
    writes for the operation that inserts it. *)
Lemma emptyNameJSON_persisted :
  toJSON 2 scenarioDocument emptyNameOp emptyNameStore = Some emptyNameJSON.
Proof. reflexivity. Qed.

(** C3, where the code departs from it.  [fromJSON] tests [child.name]
    for truthiness, not for presence: whatever the decoders of elements
    and of text are, a record whose name is the empty string is handed to
    the decoder of text.  The operation that inserts an element with the
    empty name is persisted as [emptyNameJSON]; read back, it holds a text
    node without characters, and executing it puts that text node into
    the root where executing the original puts the element. *)
Theorem fromJSON_decodes_by_truthiness
    (Element_fromJSON Text_fromJSON : JSON → gmap loc Node → option (gmap loc Node * loc))
    (fields : list (string * JSON)) (h : gmap loc Node) :
  (assoc "name" fields = Some (JStr "") →
   decodeChildren Element_fromJSON Text_fromJSON [JObj fields] h
   = match Text_fromJSON (JObj fields) h with
     | Some (h1, l) => Some (h1, [l])
     | None => None
     end)
  ∧ (∃ σ' op' l,
       fromJSON (elementFromJSON 2) textFromJSON positionFromJSON emptyNameJSON
         scenarioDocument emptyNameStore = Some (σ', op')
       ∧ nodeList op' = [l]
       ∧ nodes σ' !! l = Some (Text "")
       ∧ baseVersion op' = baseVersion emptyNameOp
       ∧ positions σ' !! position op' = positions emptyNameStore !! position emptyNameOp
       ∧ ∃ σ2 r2 op2 σ3 r3 op3,
           _execute sampleInsert 2 emptyNameOp emptyNameStore = Some (op2, σ2, r2)
           ∧ shape <$> view 3 (nodes σ2) 1%positive
             = Some (TElement "$root" [TElement "" []])
           ∧ _execute sampleInsert 2 op' σ' = Some (op3, σ3, r3)
           ∧ shape <$> view 3 (nodes σ3) 1%positive
             = Some (TElement "$root" [TText ""])).
Proof.
  split.
  - intros Hname. simpl. rewrite Hname. simpl.
    by destruct (Text_fromJSON (JObj fields) h) as [[h1 l]|].
  - eexists _, _, _. split; [reflexivity|]. simpl.
    split; [reflexivity|]. split; [reflexivity|]. split; [reflexivity|].
    split; [reflexivity|].
    eexists _, _, _, _, _, _. split; [reflexivity|]. split; [reflexivity|].
    split; reflexivity.
Qed.

(** ** How the operations compose *)

Lemma view_offsetSize fuel h l lt :
  view fuel h l = Some lt →
  ∃ nd, h !! l = Some nd ∧ offsetSize nd = treeSize (shape lt).
Proof.
  destruct fuel as [|f]; [done|]. rewrite view_S.
  destruct (h !! l) as [[name cs|data]|]; [| |done].
  - destruct (mapM (view f h) cs); [|done]. intros [= <-]. eauto.
  - intros [= <-]. eauto.
Qed.

(** The width of a list of trees of the store depends on their shapes
    only. *)
Lemma maxOffset_view fuel h ls lts :
  mapM (view fuel h) ls = Some lts →
  maxOffset h ls = Some (sum_list (treeSize <$> (shape <$> lts))).
Proof.
  revert lts. induction ls as [|l ls IH]; intros lts Hm.
  - by injection Hm as <-.
  - apply mapM_cons_Some in Hm as (lt & lts0 & Hlt & Hlts & ->).
    destruct (view_offsetSize _ _ _ _ Hlt) as (nd & Hnd & Hsz).
    cbn [maxOffset]. rewrite Hnd, (IH _ Hlts), !fmap_cons. simpl. by rewrite Hsz.
Qed.

Lemma clone_unfold fuel op σ (lts : list LTree) pos :
  mapM (view fuel (nodes σ)) (nodeList op) = Some lts →
  positions σ !! position op = Some pos →
  ∃ h1 clones (ltsc : list LTree),
    cloneAll (cloneNode fuel) (nodeList op) (nodes σ) = Some (h1, clones)
    ∧ mapM (view fuel h1) clones = Some ltsc
    ∧ shape <$> ltsc = shape <$> lts
    ∧ clone fuel op σ
      = Some (mkStore h1 (<[fresh (dom (positions σ)) := pos]> (positions σ)),
              mkInsertOperation (fresh (dom (positions σ))) clones (baseVersion op)).
Proof.
  intros Hm Hp.
  destruct (cloneAll_spec _ _ _ _ Hm) as (h1 & clones & ltsc & Hc & _ & Hv & Hs & _).
  exists h1, clones, ltsc. split; [done|]. split; [done|]. split; [done|].
  unfold clone. rewrite Hc.
  rewrite (InsertOperation_new_unfold _ _ _ _ pos) by done. simpl.
  by rewrite normalizeList_nodes.
Qed.

(** X7. Reversing a clone is reversing the original: the two remove
    operations have the same width and the same base version, at
    positions that hold the same root and path in two different
    objects. *)
Theorem clone_getReversed fuel op σ (lts : list LTree) pos :
  mapM (view fuel (nodes σ)) (nodeList op) = Some lts →
  positions σ !! position op = Some pos →
  ∃ σc opc r rc,
    clone fuel op σ = Some (σc, opc)
    ∧ getReversed op σ = Some r
    ∧ getReversed opc σc = Some rc
    ∧ howMany rc = howMany r
    ∧ removeBaseVersion rc = removeBaseVersion r
    ∧ sourcePosition rc ≠ sourcePosition r
    ∧ positions σc !! sourcePosition rc = positions σ !! sourcePosition r.
Proof.
  intros Hm Hp.
  destruct (clone_unfold _ _ _ _ _ Hm Hp) as (h1 & clones & ltsc & Hc & Hv & Hs & Hclone).
  eexists _, _, _, _. split; [exact Hclone|].
  unfold getReversed. simpl.
  rewrite (maxOffset_view _ _ _ _ Hm), (maxOffset_view _ _ _ _ Hv), Hs.
  split; [done|]. split; [done|]. simpl. split; [done|]. split; [done|].
  split.
  - intros E. pose proof (fresh_lookup (positions σ)) as Hf. rewrite E in Hf. congruence.
  - by rewrite lookup_insert_eq.
Qed.

(** The operation of the scenario and its clone both reverse to a
    removal of width 3 with base version 6. *)
Lemma clone_getReversed_witness :
  mapM (view 2 (nodes scenarioOpStore)) (nodeList scenarioOp)
    = Some [LText 2%positive "ab"; LElement 3%positive "x" []]
  ∧ positions scenarioOpStore !! position scenarioOp = Some (mkPosition 1%positive [0])
  ∧ ∃ σc opc r rc,
      clone 2 scenarioOp scenarioOpStore = Some (σc, opc)
      ∧ getReversed scenarioOp scenarioOpStore = Some r
      ∧ getReversed opc σc = Some rc
      ∧ howMany r = 3
      ∧ howMany rc = howMany r
      ∧ removeBaseVersion rc = removeBaseVersion r.
Proof.
  split; [reflexivity|]. split; [reflexivity|].
  destruct (clone_getReversed 2 scenarioOp scenarioOpStore _ _ eq_refl eq_refl)
    as (σc & opc & r & rc & Hclone & Hr & Hrc & Hw & Hb & _).
  exists σc, opc, r, rc. injection Hr as <-. auto 10.
Defined.

Section Replay.

Variable writer_insert : loc → list loc → Store → option (Store * Range).
Hypothesis writer_is_local : writer_local writer_insert.



End Replay.

Lemma scenario_root_tree :
  ∀ p, positions scenarioOpStore !! position scenarioOp = Some p →
       ∃ n lt, view n (nodes scenarioOpStore) (root p) = Some lt.
Proof. intros p [= <-]. by exists 1, (LElement 1%positive "$root" []). Qed.



(** ** What [fromJSON] builds, whatever the decoders *)

Section Decoders.

Variable Element_fromJSON : JSON → gmap loc Node → option (gmap loc Node * loc).
Variable Text_fromJSON : JSON → gmap loc Node → option (gmap loc Node * loc).
Variable Position_fromJSON : option JSON → Document → Store → option (Store * loc).

Lemma decodeChildren_length records h h1 ls :
  decodeChildren Element_fromJSON Text_fromJSON records h = Some (h1, ls) →
  length ls = length records ∧ Forall (λ r, r ≠ JNull) records.
Proof.
  revert h h1 ls. induction records as [|child rest IH]; intros h h1 ls.
  - intros [= <- <-]. split; [done|constructor].
  - cbn [decodeChildren].
    destruct (if jsonTruthy (getField child "name")
              then Element_fromJSON child h else Text_fromJSON child h)
      as [[h' l]|] eqn:Hone; [|by destruct child].
    destruct (decodeChildren Element_fromJSON Text_fromJSON rest h')
      as [[h2 ls']|] eqn:Hrest; [|by destruct child].
    destruct (IH _ _ _ Hrest) as [Hlen Hall].
    destruct child; try done; intros [= <- <-]; simpl; (split; [by rewrite Hlen|]);
      by constructor.
Qed.


End Decoders.


End InsertFacts.
